(** * chat_statistics: a shallow embedding of [src/chat_statistics/stats.py]

    The class [ChatStatistics] loads a Telegram export and a stopword list,
    ranks the users who reply to questions ([get_top_users]) and assembles the
    text of a word cloud ([generate_word_cloud]).

    Conventions of the embedding.
    - A Python [str] is a [string] holding its UTF-8 bytes; iterating over a
      [str] yields its code points, recovered by [chars].
    - A message is a record with the fields the code reads; the [text] field is
      either a [str] or a list of fragments, as in a Telegram export.
    - [self.chat_data] is mutated in place by [msg_has_question]; the methods
      are therefore state transformers on [ChatStatistics].
    - hazm, arabic_reshaper, wordcloud and [str.strip] are external: they are
      the fields of a [library] record the development is parametric in. *)

From Stdlib Require Import ZArith String Ascii List Bool Lia Sorting.Sorted.
From stdpp Require Import base gmap list strings.

Open Scope string_scope.
Open Scope list_scope.

(** ** Python strings *)

Module PyStr.

(** A UTF-8 continuation byte has the form 10xxxxxx. *)
Definition is_continuation (a : ascii) : bool :=
  let n := nat_of_ascii a in (128 <=? n)%nat && (n <? 192)%nat.

Definition starts_with_continuation (s : string) : bool :=
  match s with
  | String a _ => is_continuation a
  | EmptyString => false
  end.

(** [for c in s]: the one-character strings of [s], in order. A lead byte
    takes the continuation bytes that follow it. *)
Fixpoint chars (s : string) : list string :=
  match s with
  | EmptyString => []
  | String a s' =>
      if starts_with_continuation s' then
        match chars s' with
        | c :: cs => String a c :: cs
        | [] => [String a EmptyString]
        end
      else String a EmptyString :: chars s'
  end.

(** [needle in hay] on strings: substring test. *)
Fixpoint str_in (needle hay : string) : bool :=
  String.prefix needle hay ||
  match hay with
  | EmptyString => false
  | String _ hay' => str_in needle hay'
  end.

(** [sep.join(l)]. *)
Definition join (sep : string) (l : list string) : string :=
  String.concat sep l.

End PyStr.

Import PyStr.

(** ** Messages of a Telegram export *)

(** An element of a fragmented [text]: a plain string or a JSON object, of
    which only the key ['text'] is read. *)
Inductive fragment : Type :=
| FStr (s : string)
| FDict (d : gmap string string).

(** The [text] field: [str], or a list of fragments. *)
Inductive text_field : Type :=
| TStr (s : string)
| TList (l : list fragment).

(** A message of the export: the keys ['id'], ['from'] ([None] is JSON null)
    and ['text'], which every message carries, and the optional key
    ['reply_to_message_id']. *)
Record message : Type := Message {
  msg_id : Z;
  msg_from : option string;
  msg_reply_to_message_id : option Z;
  msg_text : text_field
}.

Definition set_text (msg : message) (t : text_field) : message :=
  {| msg_id := msg_id msg;
     msg_from := msg_from msg;
     msg_reply_to_message_id := msg_reply_to_message_id msg;
     msg_text := t |}.

(** ** [rebuild_msg] *)

(** What [for sub_msg in sub_messages] enumerates. *)
Definition iter_sub_messages (sub_messages : text_field) : list fragment :=
  match sub_messages with
  | TStr s => FStr <$> chars s
  | TList l => l
  end.

(** One turn of the loop body of [rebuild_msg]. *)
Definition rebuild_step (msg_text : string) (sub_msg : fragment) : string :=
  match sub_msg with
  | FStr s => msg_text +:+ s
  | FDict d =>
      match d !! "text" with
      | Some s => msg_text +:+ s
      | None => msg_text
      end
  end.

Definition rebuild_msg (sub_messages : text_field) : string :=
  fold_left rebuild_step (iter_sub_messages sub_messages) "".

(** The textual part of a fragment, in the words of the specification. *)
Definition fragment_text (f : fragment) : string :=
  match f with
  | FStr s => s
  | FDict d => default "" (d !! "text")
  end.

(** ** External libraries *)

(** The functions [stats.py] imports, and [str.strip]. [wordcloud_generate]
    tells whether [WordCloud(...).generate(text)] returns ([true]) or raises
    ([false]). *)
Record library : Type := Library {
  normalize : string -> string;
  word_tokenize : string -> list string;
  sent_tokenize : string -> list string;
  reshape : string -> string;
  strip : string -> string;
  wordcloud_generate : string -> bool
}.

(** ** The object state *)

(** [self.chat_data['messages']] and [self.stop_words]. *)
Record ChatStatistics : Type := Build_ChatStatistics {
  chat_data : list message;
  stop_words : gset string
}.

(** What a Python call in this file returns: [True], or [None] when the body
    falls off its end. *)
Inductive py_value : Type := PyTrue | PyNone.

Definition truthy (v : py_value) : bool :=
  match v with PyTrue => true | PyNone => false end.

(** A [dict] is the list of its items in insertion order. [d[k] = v]: the
    value of an existing key is replaced in place, a new key is appended. *)
Fixpoint dict_set {K V} `{EqDecision K} (k : K) (v : V) (d : list (K * V)) :
    list (K * V) :=
  match d with
  | [] => [(k, v)]
  | (k', v') :: d' =>
      if decide (k = k') then (k', v) :: d' else (k', v') :: dict_set k v d'
  end.

(** [dict(pairs)]. *)
Definition dict_of_pairs {K V} `{EqDecision K} (pairs : list (K * V)) :
    list (K * V) :=
  fold_left (fun d kv => dict_set kv.1 kv.2 d) pairs [].

(** [Counter(users)]: each element adds one to its count, a new element is
    appended with count 1. *)
Fixpoint counter_incr {K} `{EqDecision K} (k : K) (c : list (K * Z)) :
    list (K * Z) :=
  match c with
  | [] => [(k, 1%Z)]
  | (k', n) :: c' =>
      if decide (k = k') then (k', (n + 1)%Z) :: c'
      else (k', n) :: counter_incr k c'
  end.

Definition Counter {K} `{EqDecision K} (users : list K) : list (K * Z) :=
  fold_left (fun c u => counter_incr u c) users [].

(** [sorted(items, key=itemgetter(1), reverse=True)]: a stable sort, elements
    of equal count keep their order. *)
Fixpoint insert_desc {K} (x : K * Z) (l : list (K * Z)) : list (K * Z) :=
  match l with
  | [] => [x]
  | y :: l' => if (x.2 <? y.2)%Z then y :: insert_desc x l' else x :: y :: l'
  end.

Definition sorted_desc {K} (items : list (K * Z)) : list (K * Z) :=
  foldr insert_desc [] items.

(** [Counter.most_common(n)] is [heapq.nlargest(n, items, key=count)]: the
    first [n] items of the stable descending sort, and nothing for [n <= 0]. *)
Definition most_common {K} (n : Z) (c : list (K * Z)) : list (K * Z) :=
  if (n <=? 0)%Z then [] else take (Z.to_nat n) (sorted_desc c).

(** [is_question[k]] on a [defaultdict(bool)]: a missing key is inserted with
    [False]. *)
Definition defaultdict_getitem (d : gmap Z bool) (k : Z) : bool * gmap Z bool :=
  match d !! k with
  | Some b => (b, d)
  | None => (false, <[k := false]> d)
  end.

Section Model.

Variable L : library.

(** *** [__init__] *)

Definition init (messages : list message) (stopwords_txt : list string) :
    ChatStatistics :=
  {| chat_data := messages;
     stop_words := list_to_set (normalize L <$> (strip L <$> stopwords_txt)) |}.

(** *** [msg_has_question] *)

(** The loop over the sentences. *)
Fixpoint scan_sentences (sentences : list string) : py_value :=
  match sentences with
  | [] => PyNone
  | sentence :: sentences' =>
      if negb (str_in "?" sentence) && negb (str_in "؟" sentence)
      then scan_sentences sentences'
      else PyTrue
  end.

(** Returns the value and the message as the call leaves it: [msg['text']]
    is a [str], its former value or the rebuilt one. *)
Definition msg_has_question (msg : message) : py_value * message :=
  let text :=
    match msg_text msg with
    | TStr s => s
    | TList _ => rebuild_msg (msg_text msg)
    end in
  let msg := set_text msg (TStr text) in
  let sentences := sent_tokenize L text in
  (scan_sentences sentences, msg).

(** *** [get_top_users] *)

(** First loop: mark the questions. *)
Fixpoint mark_questions (is_question : gmap Z bool) (messages : list message) :
    gmap Z bool * list message :=
  match messages with
  | [] => (is_question, [])
  | msg :: messages' =>
      let '(r, msg) := msg_has_question msg in
      let is_question :=
        if truthy r then <[msg_id msg := true]> is_question else is_question in
      let '(is_question, messages') := mark_questions is_question messages' in
      (is_question, msg :: messages')
  end.

(** Second loop: collect the senders of the replies to a question. *)
Fixpoint collect_users (is_question : gmap Z bool) (users : list (option string))
    (messages : list message) : gmap Z bool * list (option string) :=
  match messages with
  | [] => (is_question, users)
  | msg :: messages' =>
      match msg_reply_to_message_id msg with
      | None => collect_users is_question users messages'
      | Some k =>
          if (k =? 0)%Z then collect_users is_question users messages'
          else
            let '(b, is_question) := defaultdict_getitem is_question k in
            if negb b then collect_users is_question users messages'
            else collect_users is_question (users ++ [msg_from msg]) messages'
      end
  end.

(** The list [users] at the end of the second loop. *)
Definition credited_users (messages : list message) : list (option string) :=
  let '(is_question, messages) := mark_questions ∅ messages in
  (collect_users is_question [] messages).2.

Definition get_top_users (top_n : Z) (self : ChatStatistics) :
    list (option string * Z) * ChatStatistics :=
  let '(is_question, messages) := mark_questions ∅ (chat_data self) in
  let '(_, users) := collect_users is_question [] messages in
  (dict_of_pairs (most_common top_n (Counter users)),
   {| chat_data := messages; stop_words := stop_words self |}).

(** *** [generate_word_cloud] *)

(** The loop that assembles [text_content]. *)
Fixpoint text_content_loop (stop_words : gset string) (text_content : string)
    (messages : list message) : string :=
  match messages with
  | [] => text_content
  | msg :: messages' =>
      match msg_text msg with
      | TStr s =>
          let tokens := word_tokenize L s in
          let tokens := filter (fun item => item ∉ stop_words) tokens in
          text_content_loop stop_words
            (text_content +:+ (" " +:+ join " " tokens)) messages'
      | TList _ => text_content_loop stop_words text_content messages'
      end
  end.

(** [text_content] when the loop ends. *)
Definition raw_corpus (self : ChatStatistics) : string :=
  text_content_loop (stop_words self) "" (chat_data self).

(** [text_content] as it is handed to [WordCloud.generate]. *)
Definition corpus (self : ChatStatistics) : string :=
  reshape L (normalize L (raw_corpus self)).

(** The calls made on the wordcloud library. *)
Inductive call : Type :=
| WordCloud_generate (text : string)
| to_file (output_dir file : string).

(** How the method ends: it returns, or the exception of the library
    propagates. The method raises nothing of its own. *)
Inductive outcome : Type := Returned | WordCloudRaised.

Definition generate_word_cloud (output_dir : string) (self : ChatStatistics) :
    (list call * outcome) * ChatStatistics :=
  let text_content := corpus self in
  if wordcloud_generate L text_content
  then ([WordCloud_generate text_content; to_file output_dir "wordcloud.png"],
        Returned, self)
  else ([WordCloud_generate text_content], WordCloudRaised, self).

End Model.

(** ** A reference library

    Small executable stand-ins for the external functions, used to run the
    model on concrete transcripts. They follow the libraries only as far as
    stated: sentences end after [.], [!], [?] or [؟] followed by a blank,
    words are separated by blanks, normalisation maps the Arabic letters kaf
    and yeh to their Persian forms (two entries of hazm's translation table),
    reshaping is the identity, and the rasterizer raises on a text without
    words. *)

Module Reference.

Definition newline : string := String (ascii_of_nat 10) EmptyString.

Definition is_blank (c : string) : bool :=
  (c =? " ")%string || (c =? newline)%string.

Definition is_terminator (c : string) : bool :=
  (c =? ".")%string || (c =? "!")%string || (c =? "?")%string ||
  (c =? "؟")%string.

Definition next_is_blank (cs : list string) : bool :=
  match cs with
  | c :: _ => is_blank c
  | [] => false
  end.

Definition close (cur : string) (rest : list string) : list string :=
  if (cur =? "")%string then rest else cur :: rest.

Fixpoint split_sentences (cur : string) (cs : list string) : list string :=
  match cs with
  | [] => close cur []
  | c :: cs' =>
      if is_blank c && (cur =? "")%string then split_sentences cur cs'
      else if is_terminator c && next_is_blank cs'
      then close (cur +:+ c) (split_sentences "" cs')
      else split_sentences (cur +:+ c) cs'
  end.

Fixpoint split_words (cur : string) (cs : list string) : list string :=
  match cs with
  | [] => close cur []
  | c :: cs' =>
      if is_blank c then close cur (split_words "" cs')
      else split_words (cur +:+ c) cs'
  end.

Definition normalize_char (c : string) : string :=
  if (c =? "ك")%string then "ک"
  else if (c =? "ي")%string then "ی"
  else c.

Fixpoint drop_blanks (cs : list string) : list string :=
  match cs with
  | c :: cs' => if is_blank c then drop_blanks cs' else cs
  | [] => []
  end.

Definition lib : library :=
  {| normalize := fun text => String.concat "" (normalize_char <$> chars text);
     word_tokenize := fun text => split_words "" (chars text);
     sent_tokenize := fun text => split_sentences "" (chars text);
     reshape := fun text => text;
     strip := fun text =>
       String.concat "" (rev (drop_blanks (rev (drop_blanks (chars text)))));
     wordcloud_generate := fun text =>
       match split_words "" (chars text) with [] => false | _ => true end |}.

End Reference.

(** ** Vocabulary of the statements *)

(** The flat text of a message: its [text] when that is a [str], the rebuilt
    text otherwise. *)
Definition flat_text (msg : message) : string :=
  match msg_text msg with
  | TStr s => s
  | TList _ => rebuild_msg (msg_text msg)
  end.

(** The message with its [text] replaced by its flat text. *)
Definition flattened (msg : message) : message :=
  set_text msg (TStr (flat_text msg)).

(** Some message of the collection with id [k] is a question. *)
Definition is_question_id (L : library) (messages : list message) (k : Z) : bool :=
  existsb (fun q => (msg_id q =? k)%Z && truthy (msg_has_question L q).1) messages.

(** The message replies to a question of the collection through a reply id
    that is neither absent nor zero. *)
Definition replies_to_question (L : library) (messages : list message)
    (msg : message) : bool :=
  match msg_reply_to_message_id msg with
  | Some k => negb (k =? 0)%Z && is_question_id L messages k
  | None => false
  end.

(** Position of the first occurrence of [u]. *)
Fixpoint first_pos {A} `{EqDecision A} (u : A) (l : list A) : option nat :=
  match l with
  | [] => None
  | x :: l' => if decide (u = x) then Some 0 else S <$> first_pos u l'
  end.

(** [a] occurs before an occurrence of [b]. *)
Fixpoint before {A} (a b : A) (l : list A) : Prop :=
  match l with
  | [] => False
  | x :: l' => (a = x /\ b ∈ l') \/ before a b l'
  end.

(** The [text] of the message is a [str]. *)
Definition is_plain (msg : message) : bool :=
  match msg_text msg with
  | TStr _ => true
  | TList _ => false
  end.

(** Every [text] of the collection is a [str]. *)
Definition all_plain (messages : list message) : Prop :=
  Forall (fun msg => is_plain msg = true) messages.

(** Every token of every plain-string message is a stopword. *)
Definition all_tokens_are_stopwords (L : library) (self : ChatStatistics) : Prop :=
  forall msg s token,
    msg ∈ chat_data self -> msg_text msg = TStr s ->
    token ∈ word_tokenize L s -> token ∈ stop_words self.

(** The number of messages whose [text] is a [str]. *)
Definition plain_count (messages : list message) : nat :=
  length (filter (fun msg => is_plain msg) messages).

(** [n] spaces. *)
Fixpoint spaces (n : nat) : string :=
  match n with
  | O => ""
  | S n' => " " +:+ spaces n'
  end.

(** The key is marked [True] in the index. *)
Definition marked (is_question : gmap Z bool) (k : Z) : bool :=
  match is_question !! k with
  | Some true => true
  | _ => false
  end.

(** The test of the second loop, for an index read through [f]. *)
Definition credit (f : Z -> bool) (msg : message) : bool :=
  match msg_reply_to_message_id msg with
  | Some k => negb (k =? 0)%Z && f k
  | None => false
  end.

(** The count stored under [k], 0 when [k] is not a key. *)
Fixpoint get_count {K} `{EqDecision K} (c : list (K * Z)) (k : K) : Z :=
  match c with
  | [] => 0
  | (k', n) :: c' => if decide (k = k') then n else get_count c' k
  end.

(** The number of occurrences of [k] in [users]. *)
Definition occurrences {K} `{EqDecision K} (k : K) (users : list K) : Z :=
  Z.of_nat (length (filter (fun u => k = u) users)).

(** No count is smaller than a count that comes after it. *)
Definition descending {K} (l : list (K * Z)) : Prop :=
  forall a b, before a b l -> (b.2 <= a.2)%Z.

(** The transcript of the specification's scenario: A asks, B and C reply. *)
Definition scenario : ChatStatistics :=
  init Reference.lib
    [ Message 1 (Some "A") None (TStr "Are you coming?");
      Message 2 (Some "B") (Some 1%Z) (TStr "Yes");
      Message 3 (Some "C") (Some 1%Z) (TStr "No") ]
    [].

(** The claim of order independence at one state: ranking then word cloud,
    and word cloud then ranking, give the same ranking and the same calls. *)
Definition order_independent (L : library) (top_n : Z) (output_dir : string)
    (self : ChatStatistics) : Prop :=
  let '(ranking1, self1) := get_top_users L top_n self in
  let '(cloud1, _) := generate_word_cloud L output_dir self1 in
  let '(cloud2, self2) := generate_word_cloud L output_dir self in
  let '(ranking2, _) := get_top_users L top_n self2 in
  ranking1 = ranking2 /\ cloud1 = cloud2.

(** The claim of the empty-corpus failure at one state: when every token is a
    stopword the corpus is empty and the rasterizer is not called. *)
Definition empty_corpus_not_rendered (L : library) (output_dir : string)
    (self : ChatStatistics) : Prop :=
  all_tokens_are_stopwords L self ->
  corpus L self = "" /\ (generate_word_cloud L output_dir self).1.1 = [].

(** A transcript whose only message has a fragmented text. *)
Definition fragmented_transcript : ChatStatistics :=
  init Reference.lib
    [ Message 1 (Some "A") None
        (TList [FStr "Hello "; FDict {[ "text" := "world" ]}]) ]
    [].

(** A transcript whose only words are stopwords. *)
Definition stopwords_only : ChatStatistics :=
  init Reference.lib [ Message 1 (Some "A") None (TStr "a a") ] ["a"].

(** ** The script *)

(** What a run of the script shows: the calls made on the wordcloud library
    and the two [print]s. *)
Inductive event : Type :=
| Called (c : call)
| Printed_top_users (top_users : list (option string * Z))
| Printed_done.

(** The [__main__] block, for the directory [DATA_DIR] and the contents of
    [result.json] and [stopwords.txt]. An exception of the rasterizer ends
    the run. *)
Definition main (L : library) (data_dir : string) (messages : list message)
    (stopwords_txt : list string) : list event :=
  let chat_stats := init L messages stopwords_txt in
  let '(calls, out, chat_stats) := generate_word_cloud L data_dir chat_stats in
  match out with
  | WordCloudRaised => Called <$> calls
  | Returned =>
      let '(top_users, _) := get_top_users L 10 chat_stats in
      (Called <$> calls) ++ [Printed_top_users top_users; Printed_done]
  end.

(** ** Further vocabulary *)

(** What one message adds to [text_content]. *)
Definition contribution (L : library) (stop_words : gset string)
    (msg : message) : string :=
  match msg_text msg with
  | TStr s =>
      " " +:+ join " " (filter (fun item => item ∉ stop_words) (word_tokenize L s))
  | TList _ => ""
  end.

(** The sum of the counts of a ranking. *)
Definition total_count {K} (c : list (K * Z)) : Z :=
  foldr (fun kv acc => (kv.2 + acc)%Z) 0%Z c.

(** * Properties *)

Module PyStrFacts.

Lemma str_app_cons (a : ascii) (s t : string) :
  String a s +:+ t = String a (s +:+ t).
Proof. reflexivity. Qed.

Lemma str_app_empty_l (s : string) : "" +:+ s = s.
Proof. reflexivity. Qed.

Lemma str_app_empty_r (s : string) : s +:+ "" = s.
Proof.
  induction s as [|a s IH]; [reflexivity|]. now rewrite str_app_cons, IH.
Qed.

Lemma str_app_assoc (s t u : string) : (s +:+ t) +:+ u = s +:+ (t +:+ u).
Proof.
  induction s as [|a s IH]; [reflexivity|]. now rewrite !str_app_cons, IH.
Qed.

Lemma str_concat_cons (s : string) (l : list string) :
  String.concat "" (s :: l) = s +:+ String.concat "" l.
Proof. destruct l; simpl; [now rewrite str_app_empty_r | reflexivity]. Qed.

(** The code points of a string concatenate back to it. *)
Lemma concat_chars (s : string) : String.concat "" (chars s) = s.
Proof.
  induction s as [|a s IH]; [reflexivity|].
  cbn [chars]. destruct (starts_with_continuation s).
  - destruct (chars s) as [|c cs] eqn:E.
    + simpl in IH. now subst s.
    + rewrite str_concat_cons in *. now rewrite str_app_cons, IH.
  - rewrite str_concat_cons, IH. reflexivity.
Qed.

Lemma str_in_empty (needle : string) :
  needle <> "" -> str_in needle "" = false.
Proof. destruct needle; [congruence | reflexivity]. Qed.

End PyStrFacts.

Import PyStrFacts.

(** ** [rebuild_msg] *)

Lemma rebuild_step_fragment_text (acc : string) (f : fragment) :
  rebuild_step acc f = acc +:+ fragment_text f.
Proof.
  destruct f as [s|d]; simpl; [reflexivity|].
  destruct (d !! "text"); simpl; [reflexivity | now rewrite str_app_empty_r].
Qed.

Lemma fold_rebuild_step (l : list fragment) (acc : string) :
  fold_left rebuild_step l acc = acc +:+ String.concat "" (fragment_text <$> l).
Proof.
  revert acc. induction l as [|f l IH]; intros acc.
  - simpl. now rewrite str_app_empty_r.
  - rewrite fmap_cons, str_concat_cons. cbn [fold_left].
    now rewrite IH, rebuild_step_fragment_text, str_app_assoc.
Qed.

(** C8: [rebuild_msg] returns a plain string unchanged. *)
Theorem rebuild_msg_plain_string (s : string) : rebuild_msg (TStr s) = s.
Proof.
  unfold rebuild_msg. rewrite fold_rebuild_step. simpl.
  rewrite <- list_fmap_compose.
  rewrite (list_fmap_ext (fragment_text ∘ FStr) id (chars s)) by reflexivity.
  rewrite list_fmap_id. apply concat_chars.
Qed.

(** C9: on a sequence of fragments [rebuild_msg] is the in-order
    concatenation, without separator, of the plain strings and of the [text]
    fields; a record without [text] contributes the empty string. The sequence
    ["Hello ", {"text": "world"}] gives "Hello world". *)
Theorem rebuild_msg_concat :
  (forall l : list fragment,
     rebuild_msg (TList l) = String.concat "" (fragment_text <$> l)) /\
  (forall (s : string), fragment_text (FStr s) = s) /\
  (forall (d : gmap string string) (s : string),
     fragment_text (FDict (<["text" := s]> d)) = s) /\
  (forall d : gmap string string,
     fragment_text (FDict (delete "text" d)) = "") /\
  rebuild_msg (TList [FStr "Hello "; FDict {[ "text" := "world" ]}])
    = "Hello world".
Proof.
  repeat split.
  - intros l. unfold rebuild_msg. simpl. now rewrite fold_rebuild_step.
  - intros d s. simpl. now rewrite lookup_insert_eq.
  - intros d. simpl. now rewrite lookup_delete_eq.
Qed.

(** ** [msg_has_question] *)

Section QuestionDetector.

Variable L : library.

Lemma scan_sentences_true (sentences : list string) :
  scan_sentences sentences = PyTrue <->
  exists sentence, sentence ∈ sentences /\
    (str_in "?" sentence = true \/ str_in "؟" sentence = true).
Proof.
  induction sentences as [|s ss IH]; simpl.
  - split; [discriminate | intros (x & Hx & _); inversion Hx].
  - destruct (str_in "?" s) eqn:E1; simpl.
    { split; [intros _; exists s; split; [left | auto] | reflexivity]. }
    destruct (str_in "؟" s) eqn:E2; simpl.
    { split; [intros _; exists s; split; [left | auto] | reflexivity]. }
    rewrite IH. split.
    + intros (x & Hx & H). exists x. split; [now right | exact H].
    + intros (x & Hx & H). apply elem_of_cons in Hx as [-> | Hx].
      * destruct H; congruence.
      * exists x. auto.
Qed.

Lemma msg_has_question_value (msg : message) :
  (msg_has_question L msg).1 = scan_sentences (sent_tokenize L (flat_text msg)).
Proof. unfold msg_has_question, flat_text. now destruct (msg_text msg). Qed.

Lemma msg_has_question_message (msg : message) :
  (msg_has_question L msg).2 = flattened msg.
Proof. unfold msg_has_question, flattened, flat_text. now destruct (msg_text msg). Qed.

Lemma flattened_plain (msg : message) : is_plain msg = true -> flattened msg = msg.
Proof.
  destruct msg as [i f r t]. unfold is_plain, flattened, flat_text, set_text.
  simpl. destruct t; [reflexivity | discriminate].
Qed.

Lemma flat_text_flattened (msg : message) : flat_text (flattened msg) = flat_text msg.
Proof. reflexivity. Qed.

End QuestionDetector.

(** C2: [msg_has_question] returns [True] exactly when some sentence of the
    sentence-segmented flat text contains [?] or [؟]; when the segmentation of
    the empty string is empty, a message with empty text gets the falsy
    result [None]. *)
Theorem msg_has_question_iff (L : library) (msg : message) :
  ((msg_has_question L msg).1 = PyTrue <->
   exists sentence, sentence ∈ sent_tokenize L (flat_text msg) /\
     (str_in "?" sentence = true \/ str_in "؟" sentence = true)) /\
  (sent_tokenize L "" = [] -> flat_text msg = "" ->
   (msg_has_question L msg).1 = PyNone /\
   truthy (msg_has_question L msg).1 = false).
Proof.
  rewrite msg_has_question_value. split.
  - apply scan_sentences_true.
  - intros Hseg Hempty. rewrite Hempty, Hseg. split; reflexivity.
Qed.

Lemma msg_has_question_iff_witness :
  let msg := Message 7 (Some "A") None (TList [FStr ""; FDict ∅]) in
  sent_tokenize Reference.lib "" = [] /\ flat_text msg = "" /\
  (msg_has_question Reference.lib msg).1 = PyNone.
Proof.
  intros msg. split; [reflexivity|]. split; [reflexivity|].
  apply (msg_has_question_iff Reference.lib msg); reflexivity.
Defined.

(** ** The two loops of [get_top_users] *)

Section Loops.

Variable L : library.

Lemma mark_questions_messages (messages : list message) :
  forall is_question,
    (mark_questions L is_question messages).2 = flattened <$> messages.
Proof.
  induction messages as [|m ms IH]; intros iq; [reflexivity|].
  cbn [mark_questions].
  destruct (msg_has_question L m) as [r m'] eqn:E.
  pose proof (msg_has_question_message L m) as Hm. rewrite E in Hm. simpl in Hm.
  specialize (IH (if truthy r then <[msg_id m' := true]> iq else iq)).
  destruct (mark_questions L _ ms) as [iq' ms']. simpl in *. now subst.
Qed.

Lemma mark_questions_marked (messages : list message) :
  forall is_question k,
    marked (mark_questions L is_question messages).1 k =
    is_question_id L messages k || marked is_question k.
Proof.
  induction messages as [|m ms IH]; intros iq k; [reflexivity|].
  cbn [mark_questions is_question_id existsb].
  destruct (msg_has_question L m) as [r m'] eqn:E.
  pose proof (msg_has_question_message L m) as Hm. rewrite E in Hm. simpl in Hm.
  specialize (IH (if truthy r then <[msg_id m' := true]> iq else iq) k).
  destruct (mark_questions L _ ms) as [iq' ms']. simpl in *.
  fold (is_question_id L ms k). rewrite IH. subst m'.
  change (msg_id (flattened m)) with (msg_id m).
  destruct (truthy r) eqn:Er.
  - destruct (Z.eqb_spec (msg_id m) k) as [->|Hne]; simpl.
    + unfold marked at 1. rewrite lookup_insert_eq. apply orb_true_r.
    + unfold marked at 1. rewrite lookup_insert_ne by exact Hne. reflexivity.
  - now rewrite andb_false_r.
Qed.

Lemma defaultdict_getitem_value (d : gmap Z bool) (k : Z) :
  (defaultdict_getitem d k).1 = true <-> marked d k = true.
Proof.
  unfold defaultdict_getitem, marked.
  destruct (d !! k) as [[|]|]; simpl; intuition congruence.
Qed.

Lemma defaultdict_getitem_marked (d : gmap Z bool) (k j : Z) :
  marked (defaultdict_getitem d k).2 j = marked d j.
Proof.
  unfold defaultdict_getitem, marked.
  destruct (d !! k) as [b|] eqn:E; simpl; [reflexivity|].
  destruct (decide (k = j)) as [->|Hne].
  - now rewrite lookup_insert_eq, E.
  - now rewrite lookup_insert_ne.
Qed.

Lemma filter_credit_cons (f : Z -> bool) (m : message) (ms : list message) :
  filter (fun msg => credit f msg) (m :: ms) =
  if credit f m then m :: filter (fun msg => credit f msg) ms
  else filter (fun msg => credit f msg) ms.
Proof.
  rewrite filter_cons. destruct (credit f m) eqn:E.
  - now rewrite decide_True.
  - rewrite decide_False; [reflexivity | exact id].
Qed.

Lemma collect_users_spec (f : Z -> bool) (messages : list message) :
  forall is_question users,
    (forall k, marked is_question k = f k) ->
    (collect_users is_question users messages).2 =
    users ++ (msg_from <$> filter (fun msg => credit f msg) messages).
Proof.
  induction messages as [|m ms IH]; intros iq users Hf.
  - simpl. now rewrite app_nil_r.
  - rewrite filter_credit_cons. cbn [collect_users]. unfold credit at 1.
    destruct (msg_reply_to_message_id m) as [k|]; [|now apply IH].
    destruct (Z.eqb_spec k 0) as [->|Hk]; simpl; [now apply IH|].
    pose proof (defaultdict_getitem_value iq k) as Hv.
    pose proof (defaultdict_getitem_marked iq k) as Hm.
    destruct (defaultdict_getitem iq k) as [b iq']. simpl in Hv, Hm.
    assert (Hf' : forall j, marked iq' j = f j)
      by (intros j; now rewrite Hm).
    rewrite <- Hf. destruct b; simpl.
    + rewrite (proj1 Hv eq_refl). rewrite (IH _ _ Hf').
      now rewrite <- List.app_assoc.
    + destruct (marked iq k); [now destruct Hv as [_ Hv]; discriminate Hv|].
      now apply IH.
Qed.

Lemma credit_flattened (f : Z -> bool) (messages : list message) :
  msg_from <$> filter (fun msg => credit f msg) (flattened <$> messages) =
  msg_from <$> filter (fun msg => credit f msg) messages.
Proof.
  induction messages as [|m ms IH]; [reflexivity|].
  rewrite fmap_cons, !filter_credit_cons.
  change (credit f (flattened m)) with (credit f m).
  destruct (credit f m); [|exact IH].
  rewrite !fmap_cons. now rewrite IH.
Qed.

Lemma filter_credit_ext (f g : Z -> bool) (messages : list message) :
  (forall k, f k = g k) ->
  filter (fun msg => credit f msg) messages =
  filter (fun msg => credit g msg) messages.
Proof.
  intros Hfg. induction messages as [|m ms IH]; [reflexivity|].
  rewrite !filter_credit_cons, IH.
  assert (credit f m = credit g m) as ->; [|reflexivity].
  unfold credit. destruct (msg_reply_to_message_id m); [|reflexivity].
  now rewrite Hfg.
Qed.

(** The senders the second loop collects are those of the messages that
    reply to a question of the collection. *)
Lemma credited_users_spec (messages : list message) :
  credited_users L messages =
  msg_from <$> filter (fun msg => replies_to_question L messages msg) messages.
Proof.
  unfold credited_users.
  pose proof (mark_questions_messages messages ∅) as Hms.
  pose proof (mark_questions_marked messages ∅) as Hiq.
  destruct (mark_questions L ∅ messages) as [iq ms]. simpl in Hms, Hiq. subst ms.
  rewrite (collect_users_spec (is_question_id L messages)).
  - simpl. apply credit_flattened.
  - intros k. rewrite Hiq. unfold marked. rewrite lookup_empty. apply orb_false_r.
Qed.

Lemma get_top_users_ranking (top_n : Z) (self : ChatStatistics) :
  (get_top_users L top_n self).1 =
  dict_of_pairs (most_common top_n (Counter (credited_users L (chat_data self)))).
Proof.
  unfold get_top_users, credited_users.
  destruct (mark_questions L ∅ (chat_data self)) as [iq ms].
  now destruct (collect_users iq [] ms) as [iq' users].
Qed.

Lemma get_top_users_state (top_n : Z) (self : ChatStatistics) :
  (get_top_users L top_n self).2 =
  {| chat_data := flattened <$> chat_data self; stop_words := stop_words self |}.
Proof.
  unfold get_top_users.
  pose proof (mark_questions_messages (chat_data self) ∅) as Hms.
  destruct (mark_questions L ∅ (chat_data self)) as [iq ms]. simpl in Hms.
  destruct (collect_users iq [] ms) as [iq' users]. simpl. now subst.
Qed.

End Loops.

(** ** Order of occurrence *)

Section Before.

Context {A : Type}.

Lemma before_elem (a b : A) (l : list A) : before a b l -> a ∈ l /\ b ∈ l.
Proof.
  induction l as [|x l IH]; simpl; [tauto|].
  intros [[-> Hb] | H]; rewrite !elem_of_cons; [auto | tauto].
Qed.

Lemma before_app (a b : A) (l1 l2 : list A) :
  before a b (l1 ++ l2) <->
  before a b l1 \/ (a ∈ l1 /\ b ∈ l2) \/ before a b l2.
Proof.
  induction l1 as [|x l1 IH]; simpl.
  - rewrite elem_of_nil. tauto.
  - rewrite IH, elem_of_app, elem_of_cons.
    split; [|intuition].
    intros [[-> [Hb|Hb]] | [H | [[Ha Hb] | H]]]; auto 6.
Qed.

Lemma before_lookup (l : list A) :
  forall i j a b,
    i < j -> l !! i = Some a -> l !! j = Some b -> before a b l.
Proof.
  induction l as [|x l IH]; intros i j a b Hij Hi Hj; [discriminate|].
  destruct j as [|j]; [lia|]. simpl in Hj.
  destruct i as [|i]; simpl in Hi.
  - left. split; [congruence | eapply list_elem_of_lookup_2, Hj].
  - right. apply (IH i j); [lia | assumption..].
Qed.

Lemma before_take (a b : A) (n : nat) (l : list A) :
  before a b (take n l) -> before a b l.
Proof.
  intros H. rewrite <- (take_drop n l). apply before_app. now left.
Qed.

Lemma before_fmap {B} (f : A -> B) (a b : A) (l : list A) :
  before a b l -> before (f a) (f b) (f <$> l).
Proof.
  induction l as [|x l IH]; simpl; [tauto|].
  intros [[-> Hb] | H]; [left | right; auto].
  split; [reflexivity | now apply list_elem_of_fmap_2].
Qed.

End Before.

Section FirstPos.

Context {A : Type} `{EqDecision A}.

Lemma first_pos_elem (u : A) (l : list A) :
  u ∈ l -> exists p, first_pos u l = Some p /\ p < length l.
Proof.
  induction l as [|x l IH]; [now rewrite elem_of_nil|].
  intros Hu. simpl. destruct (decide (u = x)) as [->|Hne].
  - exists 0. split; [reflexivity | lia].
  - apply elem_of_cons in Hu as [?|Hu]; [contradiction|].
    destruct (IH Hu) as (p & -> & Hp). exists (S p). split; [reflexivity | lia].
Qed.

Lemma first_pos_app_l (u : A) (l1 l2 : list A) :
  u ∈ l1 -> first_pos u (l1 ++ l2) = first_pos u l1.
Proof.
  induction l1 as [|x l1 IH]; [now rewrite elem_of_nil|].
  intros Hu. simpl. destruct (decide (u = x)); [reflexivity|].
  apply elem_of_cons in Hu as [?|Hu]; [contradiction|]. now rewrite IH.
Qed.

Lemma first_pos_snoc_new (u : A) (l : list A) :
  u ∉ l -> first_pos u (l ++ [u]) = Some (length l).
Proof.
  induction l as [|x l IH]; intros Hu; simpl.
  - now rewrite decide_True.
  - apply not_elem_of_cons in Hu as [Hne Hu].
    rewrite decide_False by exact Hne. now rewrite IH.
Qed.

End FirstPos.

(** ** [Counter] *)

Section CounterFacts.

Context {K : Type} `{EqDecision K}.

Lemma counter_incr_old (k : K) (c : list (K * Z)) :
  k ∈ c.*1 -> (counter_incr k c).*1 = c.*1.
Proof.
  induction c as [|[k' n] c IH]; [now rewrite elem_of_nil|].
  intros Hk. simpl. destruct (decide (k = k')); [reflexivity|].
  simpl in Hk. apply elem_of_cons in Hk as [?|Hk]; [contradiction|].
  simpl. f_equal. now apply IH.
Qed.

Lemma counter_incr_new (k : K) (c : list (K * Z)) :
  k ∉ c.*1 -> counter_incr k c = c ++ [(k, 1%Z)].
Proof.
  induction c as [|[k' n] c IH]; [reflexivity|].
  intros Hk. simpl in Hk. apply not_elem_of_cons in Hk as [Hne Hk].
  simpl. rewrite decide_False by exact Hne. now rewrite IH.
Qed.

Lemma get_count_incr (u k : K) (c : list (K * Z)) :
  get_count (counter_incr u c) k =
  (get_count c k + if decide (k = u) then 1 else 0)%Z.
Proof.
  induction c as [|[k' n] c IH]; simpl.
  - destruct (decide (k = u)); reflexivity.
  - destruct (decide (u = k')) as [->|Hne]; simpl.
    + destruct (decide (k = k')); lia.
    + destruct (decide (k = k')) as [->|Hk]; [|exact IH].
      rewrite decide_False by congruence. lia.
Qed.

Lemma get_count_elem (c : list (K * Z)) (k : K) (n : Z) :
  NoDup c.*1 -> (k, n) ∈ c -> get_count c k = n.
Proof.
  induction c as [|[k' n'] c IH]; [now rewrite elem_of_nil|].
  simpl. rewrite NoDup_cons, elem_of_cons. intros [Hk' Hnd] [Heq|Hin].
  - inversion Heq; subst. now rewrite decide_True.
  - destruct (decide (k = k')) as [->|Hne]; [|now apply IH].
    exfalso. apply Hk'. now apply (list_elem_of_fmap_2 fst) in Hin.
Qed.

Lemma Counter_snoc (users : list K) (u : K) :
  Counter (users ++ [u]) = counter_incr u (Counter users).
Proof. unfold Counter. now rewrite fold_left_app. Qed.

Lemma get_count_Counter (users : list K) (k : K) :
  get_count (Counter users) k = occurrences k users.
Proof.
  induction users as [|u users IH] using rev_ind; [reflexivity|].
  rewrite Counter_snoc, get_count_incr, IH. unfold occurrences.
  rewrite filter_app, length_app, filter_cons, filter_nil.
  destruct (decide (k = u)); simpl; lia.
Qed.

Lemma Counter_keys_elem (users : list K) (k : K) :
  k ∈ (Counter users).*1 <-> k ∈ users.
Proof.
  induction users as [|u users IH] using rev_ind.
  - reflexivity.
  - rewrite Counter_snoc, elem_of_app, list_elem_of_singleton, <- IH.
    destruct (decide (u ∈ (Counter users).*1)) as [Hu|Hu].
    + rewrite counter_incr_old by exact Hu. split; [tauto|].
      intros [?| ->]; assumption.
    + rewrite counter_incr_new by exact Hu.
      rewrite fmap_app, elem_of_app. simpl. now rewrite list_elem_of_singleton.
Qed.

Lemma Counter_keys_NoDup (users : list K) : NoDup (Counter users).*1.
Proof.
  induction users as [|u users IH] using rev_ind; [constructor|].
  rewrite Counter_snoc.
  destruct (decide (u ∈ (Counter users).*1)) as [Hu|Hu].
  - now rewrite counter_incr_old.
  - rewrite counter_incr_new, fmap_app by exact Hu. simpl.
    apply NoDup_app. split; [exact IH|]. split; [|apply NoDup_singleton].
    intros x Hx. rewrite list_elem_of_singleton. now intros ->.
Qed.

(** The keys of a [Counter] stand in the order of their first occurrence. *)
Lemma Counter_keys_before (users : list K) (k1 k2 : K) :
  before k1 k2 (Counter users).*1 ->
  exists p1 p2,
    first_pos k1 users = Some p1 /\ first_pos k2 users = Some p2 /\ p1 < p2.
Proof.
  induction users as [|u users IH] using rev_ind; [intros []|].
  rewrite Counter_snoc.
  destruct (decide (u ∈ (Counter users).*1)) as [Hu|Hu].
  - rewrite counter_incr_old by exact Hu. intros Hb.
    destruct (before_elem _ _ _ Hb) as [H1 H2].
    apply (proj1 (Counter_keys_elem _ _)) in H1, H2.
    destruct (IH Hb) as (p1 & p2 & E1 & E2 & Hlt).
    exists p1, p2. now rewrite !first_pos_app_l.
  - rewrite counter_incr_new, fmap_app by exact Hu. simpl.
    rewrite before_app. simpl. rewrite elem_of_nil, list_elem_of_singleton.
    intros [Hb | [[H1 ->] | [[_ []] | []]]].
    + destruct (before_elem _ _ _ Hb) as [H1 H2].
      apply (proj1 (Counter_keys_elem _ _)) in H1, H2.
      destruct (IH Hb) as (p1 & p2 & E1 & E2 & Hlt).
      exists p1, p2. now rewrite !first_pos_app_l.
    + apply (proj1 (Counter_keys_elem _ _)) in H1.
      destruct (first_pos_elem _ _ H1) as (p1 & E1 & Hp1).
      exists p1, (length users). rewrite first_pos_app_l by exact H1.
      rewrite first_pos_snoc_new; [auto|]. now rewrite <- Counter_keys_elem.
Qed.

End CounterFacts.

(** ** [most_common] and [dict] *)

Section Ranking.

Context {K : Type} `{EqDecision K}.

Lemma elem_of_insert_desc (x y : K * Z) (l : list (K * Z)) :
  y ∈ insert_desc x l <-> y = x \/ y ∈ l.
Proof.
  induction l as [|z l IH]; simpl.
  - rewrite list_elem_of_singleton, elem_of_nil. tauto.
  - destruct (x.2 <? z.2)%Z; rewrite !elem_of_cons; [rewrite IH|]; tauto.
Qed.

Lemma elem_of_sorted_desc (y : K * Z) (l : list (K * Z)) :
  y ∈ sorted_desc l <-> y ∈ l.
Proof.
  induction l as [|x l IH]; [reflexivity|].
  simpl. now rewrite elem_of_insert_desc, elem_of_cons, IH.
Qed.

Lemma insert_desc_Permutation (x : K * Z) (l : list (K * Z)) :
  insert_desc x l ≡ₚ x :: l.
Proof.
  induction l as [|z l IH]; [reflexivity|].
  simpl. destruct (x.2 <? z.2)%Z; [|reflexivity].
  rewrite IH. apply perm_swap.
Qed.

Lemma sorted_desc_Permutation (l : list (K * Z)) : sorted_desc l ≡ₚ l.
Proof.
  induction l as [|x l IH]; [reflexivity|].
  simpl. now rewrite insert_desc_Permutation, IH.
Qed.

Lemma descending_tail (x : K * Z) (l : list (K * Z)) :
  descending (x :: l) -> descending l.
Proof. intros H a b Hab. apply H. now right. Qed.

Lemma insert_desc_descending (x : K * Z) (l : list (K * Z)) :
  descending l -> descending (insert_desc x l).
Proof.
  induction l as [|z l IH]; intros Hl a b; simpl.
  - rewrite elem_of_nil. tauto.
  - destruct (Z.ltb_spec x.2 z.2) as [Hlt|Hge]; simpl.
    + rewrite elem_of_insert_desc. intros [[-> [-> | Hb]] | Hab].
      * lia.
      * apply Hl. left. auto.
      * apply (IH (descending_tail _ _ Hl)). exact Hab.
    + rewrite !elem_of_cons. intros [[-> [-> | Hb]] | Hab].
      * exact Hge.
      * assert (b.2 <= z.2)%Z by (apply Hl; left; auto). lia.
      * apply Hl. exact Hab.
Qed.

Lemma sorted_desc_descending (l : list (K * Z)) : descending (sorted_desc l).
Proof.
  induction l as [|x l IH]; [intros a b []|].
  simpl. now apply insert_desc_descending.
Qed.

(** Insertion keeps the new element ahead of the elements of equal count. *)
Lemma insert_desc_stable (x a b : K * Z) (l : list (K * Z)) :
  before a b (insert_desc x l) -> a.2 = b.2 -> before a b (x :: l).
Proof.
  intros Hab Heq. induction l as [|z l IH]; [exact Hab|].
  simpl in Hab. destruct (Z.ltb_spec x.2 z.2) as [Hlt|Hge]; [|exact Hab].
  simpl in Hab. rewrite elem_of_insert_desc in Hab.
  destruct Hab as [[-> [-> | Hb]] | Hab].
  - lia.
  - right. left. auto.
  - specialize (IH Hab). simpl in IH. simpl. rewrite elem_of_cons.
    destruct IH as [[-> Hb] | IH]; [left; auto | right; right; exact IH].
Qed.

(** The sort is stable: elements of equal count keep their order. *)
Lemma sorted_desc_stable (a b : K * Z) (l : list (K * Z)) :
  before a b (sorted_desc l) -> a.2 = b.2 -> before a b l.
Proof.
  induction l as [|x l IH]; [intros []|].
  intros Hab Heq. simpl in Hab. apply insert_desc_stable in Hab; [|exact Heq].
  simpl in Hab. simpl. rewrite elem_of_sorted_desc in Hab.
  destruct Hab as [Hab | Hab]; [left; exact Hab | right; auto].
Qed.

Lemma most_common_nonpositive (n : Z) (c : list (K * Z)) :
  (n <= 0)%Z -> most_common n c = [].
Proof. intros Hn. unfold most_common. now rewrite (proj2 (Z.leb_le n 0) Hn). Qed.

Lemma most_common_length (n : Z) (c : list (K * Z)) :
  (Z.of_nat (length (most_common n c)) <= Z.max 0 n)%Z.
Proof.
  unfold most_common. destruct (Z.leb_spec n 0); simpl; [lia|].
  rewrite length_take. lia.
Qed.

Lemma most_common_sublist (n : Z) (c : list (K * Z)) :
  most_common n c `sublist_of` sorted_desc c.
Proof.
  unfold most_common. destruct (n <=? 0)%Z;
    [apply sublist_nil_l | apply sublist_take].
Qed.

Lemma most_common_before (n : Z) (c : list (K * Z)) (a b : K * Z) :
  before a b (most_common n c) -> before a b (sorted_desc c).
Proof.
  unfold most_common. destruct (n <=? 0)%Z; [intros [] | apply before_take].
Qed.

Lemma most_common_all (n : Z) (c : list (K * Z)) :
  (Z.of_nat (length c) <= n)%Z -> c <> [] -> most_common n c = sorted_desc c.
Proof.
  intros Hn Hc. unfold most_common.
  destruct (Z.leb_spec n 0) as [Hle|Hgt].
  - destruct c; [congruence | simpl in Hn; lia].
  - apply take_ge. rewrite (Permutation_length (sorted_desc_Permutation c)). lia.
Qed.

Lemma most_common_keys_NoDup (n : Z) (c : list (K * Z)) :
  NoDup c.*1 -> NoDup (most_common n c).*1.
Proof.
  intros Hc. apply (sublist_NoDup _ ((sorted_desc c).*1)).
  - now rewrite (sorted_desc_Permutation c).
  - apply fmap_sublist, most_common_sublist.
Qed.

Lemma dict_set_new {V} (k : K) (v : V) (d : list (K * V)) :
  k ∉ d.*1 -> dict_set k v d = d ++ [(k, v)].
Proof.
  induction d as [|[k' v'] d IH]; [reflexivity|].
  intros Hk. simpl in Hk. apply not_elem_of_cons in Hk as [Hne Hk].
  simpl. rewrite decide_False by exact Hne. now rewrite IH.
Qed.

Lemma dict_of_pairs_from {V} (pairs d : list (K * V)) :
  NoDup (d ++ pairs).*1 ->
  fold_left (fun d kv => dict_set kv.1 kv.2 d) pairs d = d ++ pairs.
Proof.
  revert d. induction pairs as [|[k v] pairs IH]; intros d Hnd.
  - simpl. now rewrite app_nil_r.
  - simpl. rewrite dict_set_new.
    + rewrite IH; rewrite <- List.app_assoc; [reflexivity | exact Hnd].
    + rewrite fmap_app in Hnd. apply NoDup_app in Hnd as (_ & Hd & _).
      intros Hk. apply (Hd k Hk). simpl. left.
Qed.

(** A list of pairs with distinct keys is the [dict] it builds. *)
Lemma dict_of_pairs_NoDup {V} (pairs : list (K * V)) :
  NoDup pairs.*1 -> dict_of_pairs pairs = pairs.
Proof. intros Hnd. unfold dict_of_pairs. now rewrite dict_of_pairs_from. Qed.

End Ranking.

(** ** [get_top_users] *)

Section ResponderRanker.

Variable L : library.

Lemma ranking_most_common (top_n : Z) (self : ChatStatistics) :
  (get_top_users L top_n self).1 =
  most_common top_n (Counter (credited_users L (chat_data self))).
Proof.
  rewrite get_top_users_ranking. apply dict_of_pairs_NoDup.
  apply most_common_keys_NoDup, Counter_keys_NoDup.
Qed.

Lemma ranking_count (top_n : Z) (self : ChatStatistics) sender count :
  (sender, count) ∈ (get_top_users L top_n self).1 ->
  count = occurrences sender (credited_users L (chat_data self)).
Proof.
  rewrite ranking_most_common. intros Hin.
  pose proof (most_common_sublist top_n
    (Counter (credited_users L (chat_data self)))) as Hs.
  apply (elem_of_sublist _ _ _ Hin) in Hs.
  apply (proj1 (elem_of_sorted_desc _ _)) in Hs.
  rewrite <- get_count_Counter. symmetry.
  apply get_count_elem; [apply Counter_keys_NoDup | exact Hs].
Qed.

Lemma occurrences_senders (P : message -> bool) (sender : option string)
    (messages : list message) :
  occurrences sender (msg_from <$> filter (fun msg => P msg) messages) =
  Z.of_nat (length (filter (fun msg => msg_from msg = sender /\ P msg) messages)).
Proof.
  unfold occurrences. f_equal.
  induction messages as [|m ms IH]; [reflexivity|].
  rewrite !filter_cons. destruct (P m) eqn:EP.
  - rewrite (decide_True (P := Is_true true)) by exact I.
    rewrite fmap_cons, filter_cons.
    destruct (decide (sender = msg_from m)) as [->|Hne].
    + rewrite decide_True by (split; [reflexivity | exact I]). simpl. now rewrite IH.
    + rewrite decide_False by (intros [? _]; congruence). exact IH.
  - rewrite (decide_False (P := Is_true false)) by exact id.
    rewrite decide_False by (intros [_ []]). exact IH.
Qed.

Lemma replies_to_question_iff (messages : list message) (msg : message) :
  replies_to_question L messages msg = true <->
  exists k question,
    msg_reply_to_message_id msg = Some k /\ k <> 0%Z /\
    question ∈ messages /\ msg_id question = k /\
    (msg_has_question L question).1 = PyTrue.
Proof.
  unfold replies_to_question, is_question_id. split.
  - destruct (msg_reply_to_message_id msg) as [k|]; [|discriminate].
    rewrite andb_true_iff, negb_true_iff, Z.eqb_neq, existsb_exists.
    intros (Hk & q & Hq & Hq'). apply andb_true_iff in Hq' as [Hid Hr].
    exists k, q. apply Z.eqb_eq in Hid. apply list_elem_of_In in Hq.
    repeat split; try assumption.
    now destruct (msg_has_question L q).1.
  - intros (k & q & -> & Hk & Hq & Hid & Hr).
    rewrite andb_true_iff, negb_true_iff, Z.eqb_neq, existsb_exists.
    split; [exact Hk|]. exists q. split; [now apply list_elem_of_In|].
    rewrite Hr. simpl. rewrite andb_true_r. now apply Z.eqb_eq.
Qed.

Lemma is_question_id_reply_irrelevant (l1 l2 : list message) i f r r' t k :
  is_question_id L (l1 ++ Message i f r t :: l2) k =
  is_question_id L (l1 ++ Message i f r' t :: l2) k.
Proof. unfold is_question_id. now rewrite !existsb_app. Qed.

Lemma credited_users_credit (messages : list message) :
  credited_users L messages =
  msg_from <$> filter (fun msg => credit (is_question_id L messages) msg) messages.
Proof. exact (credited_users_spec L messages). Qed.

Lemma credited_users_zero_reply (l1 l2 : list message) i f t :
  credited_users L (l1 ++ Message i f (Some 0%Z) t :: l2) =
  credited_users L (l1 ++ Message i f None t :: l2).
Proof.
  rewrite !credited_users_credit.
  rewrite (filter_credit_ext _ (is_question_id L (l1 ++ Message i f None t :: l2)))
    by (intros k; apply is_question_id_reply_irrelevant).
  now rewrite !filter_app, !filter_credit_cons.
Qed.

End ResponderRanker.

(** C1: [get_top_users] credits a sender once for each of its messages that
    reply, through a reply id that is present and not zero, to a message of
    the collection that is a question, and for nothing else: a reply to an
    id that no question of the collection carries adds to no count. *)
Theorem credit_only_for_replies_to_questions
    (L : library) (top_n : Z) (self : ChatStatistics) :
  let messages := chat_data self in
  credited_users L messages =
    msg_from <$> filter (fun msg => replies_to_question L messages msg) messages /\
  (forall sender count,
     (sender, count) ∈ (get_top_users L top_n self).1 ->
     count = Z.of_nat (length (filter
       (fun msg => msg_from msg = sender /\ replies_to_question L messages msg)
       messages))) /\
  (forall msg,
     replies_to_question L messages msg = true <->
     exists k question,
       msg_reply_to_message_id msg = Some k /\ k <> 0%Z /\
       question ∈ messages /\ msg_id question = k /\
       (msg_has_question L question).1 = PyTrue).
Proof.
  intros messages. split; [apply credited_users_spec|]. split.
  - intros sender count Hin. apply ranking_count in Hin.
    unfold messages. rewrite Hin, credited_users_spec.
    apply occurrences_senders.
  - intros msg. apply replies_to_question_iff.
Qed.

Lemma credit_only_for_replies_to_questions_witness :
  (Some "B", 1%Z) ∈ (get_top_users Reference.lib 10 scenario).1 /\
  1%Z = Z.of_nat (length (filter
    (fun msg => msg_from msg = Some "B" /\
                replies_to_question Reference.lib (chat_data scenario) msg)
    (chat_data scenario))).
Proof.
  assert (H : (Some "B", 1%Z) ∈ (get_top_users Reference.lib 10 scenario).1)
    by (vm_compute; left).
  split; [exact H|].
  apply (credit_only_for_replies_to_questions Reference.lib 10 scenario), H.
Defined.

(** C3: the ranking has at most [top_n] entries (none for [top_n <= 0]); a
    later entry never has a larger count, and of two entries with the same
    count the earlier one is the sender credited first; when [top_n] is at
    least the number of distinct credited senders, every one of them is in the
    ranking with its count. *)
Theorem get_top_users_top_n (L : library) (top_n : Z) (self : ChatStatistics) :
  let ranking := (get_top_users L top_n self).1 in
  let users := credited_users L (chat_data self) in
  (Z.of_nat (length ranking) <= Z.max 0 top_n)%Z /\
  (forall i j u1 c1 u2 c2,
     i < j -> ranking !! i = Some (u1, c1) -> ranking !! j = Some (u2, c2) ->
     (c2 <= c1)%Z /\
     (c1 = c2 ->
      exists p1 p2,
        first_pos u1 users = Some p1 /\ first_pos u2 users = Some p2 /\ p1 < p2)) /\
  ((top_n <= 0)%Z -> ranking = []) /\
  ((Z.of_nat (length (remove_dups users)) <= top_n)%Z ->
   forall u, u ∈ users -> (u, occurrences u users) ∈ ranking).
Proof.
  intros ranking users. unfold ranking. rewrite ranking_most_common.
  fold users. split; [apply most_common_length|]. split; [|split].
  - intros i j u1 c1 u2 c2 Hij Hi Hj.
    pose proof (before_lookup _ _ _ _ _ Hij Hi Hj) as Hb.
    apply most_common_before in Hb. split.
    + apply (sorted_desc_descending _ _ _ Hb).
    + intros ->. apply sorted_desc_stable in Hb; [|reflexivity].
      apply (before_fmap fst) in Hb. now apply Counter_keys_before in Hb.
  - apply most_common_nonpositive.
  - intros Hn u Hu.
    assert (Hlen : length (Counter users) = length (remove_dups users)).
    { rewrite <- (length_fmap fst). apply Permutation_length, NoDup_Permutation.
      - apply Counter_keys_NoDup.
      - apply NoDup_remove_dups.
      - intros k. now rewrite Counter_keys_elem, elem_of_remove_dups. }
    rewrite most_common_all.
    + apply elem_of_sorted_desc.
      apply (proj2 (Counter_keys_elem users u)) in Hu.
      apply list_elem_of_fmap in Hu as ([k n] & -> & Hkn). simpl.
      rewrite <- get_count_Counter.
      now rewrite (get_count_elem _ _ _ (Counter_keys_NoDup users) Hkn).
    + lia.
    + intros Hnil. apply (proj2 (Counter_keys_elem users u)) in Hu.
      rewrite Hnil in Hu. inversion Hu.
Qed.

Lemma get_top_users_top_n_witness :
  (get_top_users Reference.lib 10 scenario).1 = [(Some "B", 1%Z); (Some "C", 1%Z)] /\
  (exists p1 p2,
     first_pos (Some "B") (credited_users Reference.lib (chat_data scenario)) = Some p1 /\
     first_pos (Some "C") (credited_users Reference.lib (chat_data scenario)) = Some p2 /\
     p1 < p2) /\
  (get_top_users Reference.lib 0 scenario).1 = [] /\
  (Some "C", 1%Z) ∈ (get_top_users Reference.lib 2 scenario).1.
Proof.
  pose proof (get_top_users_top_n Reference.lib 10 scenario) as (_ & Hord & _ & _).
  pose proof (get_top_users_top_n Reference.lib 0 scenario) as (_ & _ & Hzero & _).
  pose proof (get_top_users_top_n Reference.lib 2 scenario) as (_ & _ & _ & Hall).
  split; [reflexivity|]. split; [|split].
  - apply (Hord 0 1 (Some "B") 1%Z (Some "C") 1%Z); [lia | reflexivity..].
  - apply Hzero. lia.
  - apply (Hall ltac:(vm_compute; discriminate) (Some "C")).
    vm_compute. right. left.
Defined.

(** C10: a reply whose [reply_to_message_id] is 0 is handled as a message
    without reply link: it earns no credit and the ranking is the one of the
    collection in which the link is absent, also when a question with id 0
    is in the collection. *)
Theorem zero_reply_id_is_no_reply (L : library) (top_n : Z)
    (l1 l2 : list message) (stop : gset string)
    (i : Z) (f : option string) (t : text_field) :
  (get_top_users L top_n
     {| chat_data := l1 ++ Message i f (Some 0%Z) t :: l2; stop_words := stop |}).1 =
  (get_top_users L top_n
     {| chat_data := l1 ++ Message i f None t :: l2; stop_words := stop |}).1 /\
  replies_to_question L (l1 ++ Message i f (Some 0%Z) t :: l2)
    (Message i f (Some 0%Z) t) = false /\
  (get_top_users Reference.lib 10
     (init Reference.lib
        [ Message 0 (Some "A") None (TStr "Are you coming?");
          Message 1 (Some "B") (Some 0%Z) (TStr "Yes") ] [])).1 = [].
Proof.
  split; [|split; reflexivity].
  rewrite !ranking_most_common. simpl. now rewrite credited_users_zero_reply.
Qed.

(** C5, the code at the failing input: A asks a question and replies to it;
    A is ranked with one credit. *)
Example self_reply_is_credited :
  (get_top_users Reference.lib 10
     (init Reference.lib
        [ Message 1 (Some "A") None (TStr "Are you coming?");
          Message 2 (Some "A") (Some 1%Z) (TStr "Yes") ] [])).1
  = [(Some "A", 1%Z)].
Proof. reflexivity. Qed.

(** ** [generate_word_cloud] *)

Section WordCloud.

Variable L : library.

Lemma generate_word_cloud_state (output_dir : string) (self : ChatStatistics) :
  (generate_word_cloud L output_dir self).2 = self.
Proof.
  unfold generate_word_cloud. now destruct (wordcloud_generate L (corpus L self)).
Qed.

Lemma generate_word_cloud_calls (output_dir : string) (self : ChatStatistics) :
  exists calls,
    (generate_word_cloud L output_dir self).1.1 =
    WordCloud_generate (corpus L self) :: calls.
Proof.
  unfold generate_word_cloud.
  destruct (wordcloud_generate L (corpus L self)); simpl; eauto.
Qed.

Lemma fmap_flattened_plain (messages : list message) :
  all_plain messages -> flattened <$> messages = messages.
Proof.
  induction 1 as [|m ms Hm _ IH]; [reflexivity|].
  now rewrite fmap_cons, IH, flattened_plain.
Qed.

Lemma spaces_snoc (n : nat) : spaces n +:+ " " = spaces (S n).
Proof.
  induction n as [|n IH]; [reflexivity|].
  cbn [spaces]. now rewrite str_app_assoc, IH.
Qed.

Lemma filter_stopwords_nil (sw : gset string) (tokens : list string) :
  (forall token, token ∈ tokens -> token ∈ sw) ->
  filter (fun item => item ∉ sw) tokens = [].
Proof.
  induction tokens as [|t ts IH]; intros Hall; [reflexivity|].
  rewrite filter_cons, decide_False.
  - apply IH. intros token Ht. apply Hall. now right.
  - intros Hn. apply Hn, Hall. left.
Qed.

Lemma plain_count_cons (m : message) (ms : list message) :
  plain_count (m :: ms) =
  if is_plain m then S (plain_count ms) else plain_count ms.
Proof.
  unfold plain_count. rewrite filter_cons. destruct (is_plain m).
  - now rewrite decide_True.
  - rewrite decide_False; [reflexivity | exact id].
Qed.

Lemma text_content_loop_all_stopwords (sw : gset string) (messages : list message) :
  (forall msg s token,
     msg ∈ messages -> msg_text msg = TStr s ->
     token ∈ word_tokenize L s -> token ∈ sw) ->
  forall n,
    text_content_loop L sw (spaces n) messages =
    spaces (n + plain_count messages).
Proof.
  induction messages as [|m ms IH]; intros Hall n.
  - simpl. now rewrite Nat.add_0_r.
  - assert (Hms : forall msg s token,
               msg ∈ ms -> msg_text msg = TStr s ->
               token ∈ word_tokenize L s -> token ∈ sw)
      by (intros msg s token Hin; apply Hall; now right).
    rewrite plain_count_cons. unfold is_plain.
    cbn [text_content_loop]. destruct (msg_text m) as [s|l] eqn:Et.
    + rewrite filter_stopwords_nil
        by (intros token; apply (Hall m s); [left | exact Et]).
      change (" " +:+ join " " []) with " ".
      rewrite spaces_snoc, (IH Hms). f_equal. lia.
    + apply (IH Hms).
Qed.

End WordCloud.

(** C7 as amended: when every token of every plain-string message is a
    stopword, the text assembled by the loop is one space for each
    plain-string message, [generate_word_cloud] hands its normalised,
    reshaped form to the rasterizer as its first call, and the method fails
    only when the rasterizer raises. *)
Theorem all_stopwords_corpus_is_rendered
    (L : library) (output_dir : string) (self : ChatStatistics) :
  all_tokens_are_stopwords L self ->
  let text := reshape L (normalize L (spaces (plain_count (chat_data self)))) in
  raw_corpus L self = spaces (plain_count (chat_data self)) /\
  (exists calls,
     (generate_word_cloud L output_dir self).1.1 = WordCloud_generate text :: calls) /\
  (generate_word_cloud L output_dir self).1.2 =
    if wordcloud_generate L text then Returned else WordCloudRaised.
Proof.
  intros Hall text.
  assert (Hraw : raw_corpus L self = spaces (plain_count (chat_data self)))
    by exact (text_content_loop_all_stopwords L _ _ Hall 0).
  assert (Hc : corpus L self = text) by (unfold corpus; now rewrite Hraw).
  split; [exact Hraw|]. unfold generate_word_cloud. rewrite Hc.
  destruct (wordcloud_generate L text); simpl; eauto.
Qed.

Lemma stopwords_only_all_stopwords :
  all_tokens_are_stopwords Reference.lib stopwords_only.
Proof.
  intros msg s token Hm Ht Htok.
  apply list_elem_of_singleton in Hm. subst msg. injection Ht as <-.
  vm_compute in Htok.
  apply elem_of_cons in Htok as [->|Htok]; [compute_done|].
  apply list_elem_of_singleton in Htok as ->. compute_done.
Defined.

Lemma all_stopwords_corpus_is_rendered_witness :
  all_tokens_are_stopwords Reference.lib stopwords_only /\
  raw_corpus Reference.lib stopwords_only = " ".
Proof.
  split; [exact stopwords_only_all_stopwords|].
  apply (all_stopwords_corpus_is_rendered Reference.lib "out" stopwords_only
           stopwords_only_all_stopwords).
Defined.

(** C7 as stated fails: every token of the transcript is a stopword, yet the
    corpus is a space and the rasterizer is called on it. *)
Lemma empty_corpus_is_rendered :
  all_tokens_are_stopwords Reference.lib stopwords_only /\
  corpus Reference.lib stopwords_only = " " /\
  (generate_word_cloud Reference.lib "out" stopwords_only).1.1 =
    [WordCloud_generate " "] /\
  ~ empty_corpus_not_rendered Reference.lib "out" stopwords_only.
Proof.
  split; [exact stopwords_only_all_stopwords|].
  split; [reflexivity|]. split; [reflexivity|].
  intros H. destruct (H stopwords_only_all_stopwords) as [Hc _].
  vm_compute in Hc. discriminate Hc.
Qed.

(** C6 as amended: the ranking is the same whether or not
    [generate_word_cloud] ran first; [get_top_users] leaves every [text]
    flat, so a word cloud generated after it is the one of the flattened
    collection; when every [text] of the collection is a plain string, the
    two orders give the same ranking and the same word cloud. *)
Theorem order_independent_when_plain
    (L : library) (top_n : Z) (output_dir : string) (self : ChatStatistics) :
  (get_top_users L top_n (generate_word_cloud L output_dir self).2).1 =
    (get_top_users L top_n self).1 /\
  (generate_word_cloud L output_dir (get_top_users L top_n self).2).1 =
    (generate_word_cloud L output_dir
       {| chat_data := flattened <$> chat_data self;
          stop_words := stop_words self |}).1 /\
  (all_plain (chat_data self) -> order_independent L top_n output_dir self).
Proof.
  split; [now rewrite generate_word_cloud_state|].
  split; [now rewrite get_top_users_state|].
  intros Hplain. unfold order_independent.
  pose proof (get_top_users_state L top_n self) as Hst.
  rewrite (fmap_flattened_plain _ Hplain) in Hst.
  destruct (get_top_users L top_n self) as [ranking1 self1] eqn:E1.
  simpl in Hst. subst self1.
  assert (Hself : {| chat_data := chat_data self; stop_words := stop_words self |}
                  = self) by now destruct self.
  rewrite Hself.
  pose proof (generate_word_cloud_state L output_dir self) as Hgw.
  destruct (generate_word_cloud L output_dir self) as [cloud2 self2].
  simpl in Hgw. subst self2. rewrite E1. split; reflexivity.
Qed.

Lemma order_independent_when_plain_witness :
  all_plain (chat_data scenario) /\
  order_independent Reference.lib 10 "out" scenario.
Proof.
  assert (H : all_plain (chat_data scenario))
    by (repeat constructor).
  split; [exact H|].
  apply (order_independent_when_plain Reference.lib 10 "out" scenario), H.
Defined.

(** C6 as stated fails: on a transcript with a fragmented text the word cloud
    built before the ranking has an empty corpus, the one built after it has
    the rebuilt text. *)
Lemma ranking_changes_word_cloud :
  corpus Reference.lib fragmented_transcript = "" /\
  corpus Reference.lib
    (get_top_users Reference.lib 10 fragmented_transcript).2 = " Hello world" /\
  ~ order_independent Reference.lib 10 "out" fragmented_transcript.
Proof.
  split; [reflexivity|]. split; [reflexivity|].
  intros H. vm_compute in H. destruct H as [_ H]. discriminate H.
Qed.

(** C4, the code at the failing input: the stopword list holds [که]; the
    message spells the word with the Arabic kaf. The token normalises to the
    stopword, is not in the stopword set as spelled, and reaches the
    corpus. *)
Example raw_token_escapes_stopwords :
  let self :=
    init Reference.lib [ Message 1 (Some "A") None (TStr "كه") ] ["که"] in
  word_tokenize Reference.lib "كه" = ["كه"] /\
  (normalize Reference.lib "كه" ∈ stop_words self) /\
  ("كه" ∉ stop_words self) /\
  raw_corpus Reference.lib self = " كه" /\
  corpus Reference.lib self = " که".
Proof.
  intros self. split; [reflexivity|].
  split; [compute_done|]. split; [compute_done|].
  split; reflexivity.
Qed.

(** * Further properties of the code *)

(** ** Strings *)

Lemma str_app_eq_empty (s t : string) : s +:+ t = "" -> s = "" /\ t = "".
Proof. destruct s; [simpl; auto | discriminate]. Qed.

Lemma str_concat_app (l1 l2 : list string) :
  String.concat "" (l1 ++ l2) = String.concat "" l1 +:+ String.concat "" l2.
Proof.
  induction l1 as [|s l1 IH]; [reflexivity|].
  change ((s :: l1) ++ l2) with (s :: (l1 ++ l2)).
  now rewrite !str_concat_cons, IH, str_app_assoc.
Qed.

Lemma prefix_true_iff (needle hay : string) :
  String.prefix needle hay = true <-> exists post, hay = needle +:+ post.
Proof.
  revert hay. induction needle as [|a needle IH]; intros hay.
  - split; [intros _; now exists hay | now destruct hay].
  - destruct hay as [|b hay]; simpl.
    + split; [discriminate | intros [post H]; discriminate H].
    + destruct (Ascii.ascii_dec a b) as [->|Hne].
      * rewrite IH. split; intros [post H]; exists post.
        -- now rewrite str_app_cons, H.
        -- rewrite str_app_cons in H. now injection H.
      * split; [discriminate|]. intros [post H].
        rewrite str_app_cons in H. injection H as -> _. contradiction.
Qed.

(** [needle in hay] holds exactly when [needle] occurs somewhere in [hay]. *)
Lemma str_in_true_iff (needle hay : string) :
  str_in needle hay = true <-> exists pre post, hay = pre +:+ (needle +:+ post).
Proof.
  induction hay as [|b hay IH].
  - cbn [str_in]. rewrite orb_false_r. split.
    + intros H. apply prefix_true_iff in H as [post H]. now exists "", post.
    + intros (pre & post & H). symmetry in H.
      apply str_app_eq_empty in H as [-> H]. apply prefix_true_iff. now exists post.
  - cbn [str_in]. rewrite orb_true_iff, IH. split.
    + intros [H | (pre & post & H)].
      * apply prefix_true_iff in H as [post H]. now exists "", post.
      * exists (String b pre), post. now rewrite str_app_cons, H.
    + intros (pre & post & H). destruct pre as [|c pre].
      * left. apply prefix_true_iff. now exists post.
      * right. rewrite str_app_cons in H. injection H as _ H. now exists pre, post.
Qed.

(** ** [rebuild_msg] and [msg_has_question] *)

(** X1: the text rebuilt from two fragment sequences put end to end is the
    concatenation of the two rebuilt texts. *)
Theorem rebuild_msg_app (l1 l2 : list fragment) :
  rebuild_msg (TList (l1 ++ l2)) =
  rebuild_msg (TList l1) +:+ rebuild_msg (TList l2).
Proof.
  unfold rebuild_msg. simpl. rewrite !fold_rebuild_step, !str_app_empty_l.
  now rewrite fmap_app, str_concat_app.
Qed.

(** X2: the value of [msg_has_question] does not depend on where a question
    mark stands: it is [True] exactly when some sentence of the flat text
    can be cut into a text before a [?] or a [؟] and a text after it. *)
Theorem msg_has_question_any_position (L : library) (msg : message) :
  (msg_has_question L msg).1 = PyTrue <->
  exists sentence pre post,
    sentence ∈ sent_tokenize L (flat_text msg) /\
    (sentence = pre +:+ ("?" +:+ post) \/ sentence = pre +:+ ("؟" +:+ post)).
Proof.
  rewrite msg_has_question_value, scan_sentences_true. split.
  - intros (s & Hs & [H | H]); apply str_in_true_iff in H as (pre & post & H);
      exists s, pre, post; auto.
  - intros (s & pre & post & Hs & [H | H]); exists s; (split; [exact Hs|]);
      [left | right]; apply str_in_true_iff; now exists pre, post.
Qed.

(** ** More on [Counter] and [most_common] *)

Section MoreRanking.

Context {K : Type} `{EqDecision K}.

Lemma occurrences_pos (u : K) (users : list K) :
  u ∈ users -> (1 <= occurrences u users)%Z.
Proof.
  unfold occurrences. induction users as [|x users IH]; [now rewrite elem_of_nil|].
  rewrite elem_of_cons, filter_cons. intros [->|Hu].
  - rewrite decide_True by reflexivity. simpl. lia.
  - specialize (IH Hu). destruct (decide (u = x)); simpl; lia.
Qed.

Lemma occurrences_le (u : K) (users : list K) :
  (occurrences u users <= Z.of_nat (length users))%Z.
Proof. unfold occurrences. pose proof (length_filter (fun x => u = x) users). lia. Qed.

Lemma Counter_elem (users : list K) (u : K) (c : Z) :
  (u, c) ∈ Counter users -> u ∈ users /\ c = occurrences u users.
Proof.
  intros Hin. split.
  - apply Counter_keys_elem. now apply (list_elem_of_fmap_2 fst) in Hin.
  - rewrite <- get_count_Counter. symmetry.
    apply get_count_elem; [apply Counter_keys_NoDup | exact Hin].
Qed.

Lemma Counter_length (users : list K) :
  length (Counter users) = length (remove_dups users).
Proof.
  rewrite <- (length_fmap fst). apply Permutation_length, NoDup_Permutation.
  - apply Counter_keys_NoDup.
  - apply NoDup_remove_dups.
  - intros k. now rewrite Counter_keys_elem, elem_of_remove_dups.
Qed.

Lemma most_common_elem (n : Z) (c : list (K * Z)) (kv : K * Z) :
  kv ∈ most_common n c -> kv ∈ c.
Proof.
  intros Hin. apply elem_of_sorted_desc.
  exact (elem_of_sublist _ _ _ Hin (most_common_sublist n c)).
Qed.

Lemma most_common_full (n : Z) (c : list (K * Z)) :
  (Z.of_nat (length c) <= n)%Z -> most_common n c = sorted_desc c.
Proof.
  intros Hn. destruct c as [|kv c].
  - unfold most_common. destruct (n <=? 0)%Z; [reflexivity | apply take_nil].
  - apply most_common_all; [exact Hn | discriminate].
Qed.

Lemma most_common_prefix (n m : Z) (c : list (K * Z)) :
  (n <= m)%Z -> most_common n c `prefix_of` most_common m c.
Proof.
  intros Hnm. unfold most_common.
  destruct (Z.leb_spec n 0) as [Hn|Hn]; [apply prefix_nil|].
  destruct (Z.leb_spec m 0) as [Hm|Hm]; [lia|].
  replace (take (Z.to_nat n) (sorted_desc c))
    with (take (Z.to_nat n) (take (Z.to_nat m) (sorted_desc c))).
  - apply prefix_take.
  - rewrite take_take. f_equal. lia.
Qed.

Lemma total_count_incr (u : K) (c : list (K * Z)) :
  total_count (counter_incr u c) = (total_count c + 1)%Z.
Proof.
  induction c as [|[k n] c IH]; simpl; [reflexivity|].
  destruct (decide (u = k)); simpl; [lia | rewrite IH; lia].
Qed.

Lemma total_count_Counter (users : list K) :
  total_count (Counter users) = Z.of_nat (length users).
Proof.
  induction users as [|u users IH] using rev_ind; [reflexivity|].
  rewrite Counter_snoc, total_count_incr, IH, length_app. simpl. lia.
Qed.

Lemma total_count_Permutation (l l' : list (K * Z)) :
  l ≡ₚ l' -> total_count l = total_count l'.
Proof. induction 1; simpl; lia. Qed.

Lemma total_count_take (n : nat) (l : list (K * Z)) :
  (forall kv, kv ∈ l -> (0 <= kv.2)%Z) ->
  (0 <= total_count (take n l) <= total_count l)%Z.
Proof.
  revert n. induction l as [|kv l IH]; intros n Hpos.
  - rewrite take_nil. simpl. lia.
  - destruct n as [|n]; simpl.
    + assert (0 <= kv.2)%Z by (apply Hpos; left).
      specialize (IH 0 (fun x Hx => Hpos x (list_elem_of_further _ _ _ Hx))).
      rewrite take_0 in IH. simpl in IH. lia.
    + assert (0 <= kv.2)%Z by (apply Hpos; left).
      specialize (IH n (fun x Hx => Hpos x (list_elem_of_further _ _ _ Hx))). lia.
Qed.

Lemma total_count_most_common (n : Z) (users : list K) :
  (0 <= total_count (most_common n (Counter users)) <= Z.of_nat (length users))%Z.
Proof.
  rewrite <- total_count_Counter,
    <- (total_count_Permutation _ _ (sorted_desc_Permutation (Counter users))).
  unfold most_common. destruct (n <=? 0)%Z.
  - split; [simpl; lia|].
    apply (total_count_take 0). intros [u c] Hin.
    apply elem_of_sorted_desc, Counter_elem in Hin as [Hu ->].
    pose proof (occurrences_pos u users Hu). simpl. lia.
  - apply total_count_take. intros [u c] Hin.
    apply elem_of_sorted_desc, Counter_elem in Hin as [Hu ->].
    pose proof (occurrences_pos u users Hu). simpl. lia.
Qed.

End MoreRanking.

(** ** More on [get_top_users] *)

Section MoreResponderRanker.

Variable L : library.

Lemma is_question_id_flattened (messages : list message) (k : Z) :
  is_question_id L (flattened <$> messages) k = is_question_id L messages k.
Proof.
  unfold is_question_id. induction messages as [|m ms IH]; [reflexivity|].
  rewrite fmap_cons. cbn [existsb]. now rewrite IH.
Qed.

Lemma credited_users_flattened (messages : list message) :
  credited_users L (flattened <$> messages) = credited_users L messages.
Proof.
  rewrite !credited_users_credit, credit_flattened.
  now rewrite (filter_credit_ext _ (is_question_id L messages))
    by (intros k; apply is_question_id_flattened).
Qed.

Lemma fmap_flattened_idemp (messages : list message) :
  flattened <$> (flattened <$> messages) = flattened <$> messages.
Proof. rewrite <- list_fmap_compose. now apply list_fmap_ext. Qed.

Lemma is_question_id_Permutation (ms ms' : list message) (k : Z) :
  ms ≡ₚ ms' -> is_question_id L ms k = is_question_id L ms' k.
Proof.
  unfold is_question_id. induction 1 as [|m ms ms' _ IH|m1 m2 ms|ms1 ms2 ms3 _ IH1 _ IH2].
  - reflexivity.
  - cbn [existsb]. now rewrite IH.
  - cbn [existsb]. rewrite !orb_assoc. f_equal. apply orb_comm.
  - congruence.
Qed.

Lemma credited_users_Permutation (ms ms' : list message) :
  ms ≡ₚ ms' -> credited_users L ms ≡ₚ credited_users L ms'.
Proof.
  intros Hp. rewrite !credited_users_spec.
  rewrite (list_filter_iff (fun msg => replies_to_question L ms msg)
             (fun msg => replies_to_question L ms' msg)).
  - now rewrite Hp.
  - intros m. unfold replies_to_question.
    destruct (msg_reply_to_message_id m); [|reflexivity].
    now rewrite (is_question_id_Permutation ms ms' _ Hp).
Qed.

Lemma filter_none {A} (P : A -> Prop) `{forall x, Decision (P x)} (l : list A) :
  (forall x, x ∈ l -> ~ P x) -> filter P l = [].
Proof.
  induction l as [|x l IH]; intros Hl; [reflexivity|].
  rewrite filter_cons, decide_False by (apply Hl; left).
  apply IH. intros y Hy. apply Hl. now right.
Qed.

Lemma ranking_elem (top_n : Z) (self : ChatStatistics) (u : option string) (c : Z) :
  (u, c) ∈ (get_top_users L top_n self).1 ->
  u ∈ credited_users L (chat_data self) /\
  c = occurrences u (credited_users L (chat_data self)).
Proof.
  rewrite ranking_most_common. intros Hin.
  now apply most_common_elem, Counter_elem in Hin.
Qed.

Lemma ranking_full (top_n : Z) (self : ChatStatistics) :
  (Z.of_nat (length (remove_dups (credited_users L (chat_data self)))) <= top_n)%Z ->
  (get_top_users L top_n self).1 =
  sorted_desc (Counter (credited_users L (chat_data self))).
Proof.
  intros Hn. rewrite ranking_most_common. apply most_common_full.
  now rewrite Counter_length.
Qed.

Lemma credited_users_length (messages : list message) :
  length (credited_users L messages) =
  length (filter (fun msg => replies_to_question L messages msg) messages).
Proof. now rewrite credited_users_spec, length_fmap. Qed.

End MoreResponderRanker.

(** X3: [get_top_users] keeps the stopwords and, message by message, the
    [id], the sender, the reply link and the flat text of the collection; it
    leaves every [text] a [str]. *)
Theorem get_top_users_leaves_texts_flat
    (L : library) (top_n : Z) (self : ChatStatistics) :
  let self' := (get_top_users L top_n self).2 in
  stop_words self' = stop_words self /\
  msg_id <$> chat_data self' = msg_id <$> chat_data self /\
  msg_from <$> chat_data self' = msg_from <$> chat_data self /\
  msg_reply_to_message_id <$> chat_data self' =
    msg_reply_to_message_id <$> chat_data self /\
  flat_text <$> chat_data self' = flat_text <$> chat_data self /\
  msg_text <$> chat_data self' = (fun msg => TStr (flat_text msg)) <$> chat_data self /\
  all_plain (chat_data self').
Proof.
  intros self'. unfold self'. rewrite get_top_users_state. simpl.
  rewrite <- !list_fmap_compose. repeat split; try reflexivity.
  unfold all_plain. apply Forall_fmap, Forall_forall. reflexivity.
Qed.

(** X4: a second call of [get_top_users], with the same or another [top_n],
    ranks as a first call with that [top_n] would have and leaves the state
    of the first call unchanged. *)
Theorem get_top_users_repeatable
    (L : library) (top_n top_n' : Z) (self : ChatStatistics) :
  let self' := (get_top_users L top_n self).2 in
  (get_top_users L top_n' self').1 = (get_top_users L top_n' self).1 /\
  (get_top_users L top_n' self').2 = self'.
Proof.
  intros self'. unfold self'. split.
  - rewrite !ranking_most_common, get_top_users_state. simpl.
    now rewrite credited_users_flattened.
  - rewrite !get_top_users_state. simpl. now rewrite fmap_flattened_idemp.
Qed.

(** X5: no sender is ranked twice; every ranked sender is the sender of a
    message of the collection that replies to a question, and its count is
    at least 1 and at most the number of messages. *)
Theorem ranking_well_formed (L : library) (top_n : Z) (self : ChatStatistics) :
  let ranking := (get_top_users L top_n self).1 in
  NoDup ranking.*1 /\
  forall sender count,
    (sender, count) ∈ ranking ->
    (1 <= count <= Z.of_nat (length (chat_data self)))%Z /\
    exists msg,
      msg ∈ chat_data self /\ msg_from msg = sender /\
      replies_to_question L (chat_data self) msg = true.
Proof.
  intros ranking. unfold ranking. split.
  - rewrite ranking_most_common.
    apply most_common_keys_NoDup, Counter_keys_NoDup.
  - intros sender count Hin. apply ranking_elem in Hin as [Hu ->].
    pose proof (occurrences_pos _ _ Hu) as Hpos.
    pose proof (occurrences_le sender (credited_users L (chat_data self))) as Hle.
    rewrite credited_users_length in Hle.
    pose proof (length_filter
      (fun msg => replies_to_question L (chat_data self) msg) (chat_data self)).
    split; [lia|].
    rewrite credited_users_spec in Hu.
    apply list_elem_of_fmap in Hu as (msg & -> & Hmsg).
    apply list_elem_of_filter in Hmsg as [Hr Hmsg].
    exists msg. repeat split; [exact Hmsg|]. now apply Is_true_eq_true.
Qed.

Lemma ranking_well_formed_witness :
  (Some "C", 1%Z) ∈ (get_top_users Reference.lib 10 scenario).1 /\
  exists msg,
    msg ∈ chat_data scenario /\ msg_from msg = Some "C" /\
    replies_to_question Reference.lib (chat_data scenario) msg = true.
Proof.
  assert (H : (Some "C", 1%Z) ∈ (get_top_users Reference.lib 10 scenario).1)
    by (vm_compute; right; left).
  split; [exact H|].
  pose proof (ranking_well_formed Reference.lib 10 scenario) as [_ Hwf].
  exact (proj2 (Hwf (Some "C") 1%Z H)).
Defined.

(** X6: the counts of the ranking never add up to more than the number of
    messages that reply to a question, and add up to exactly that number
    when [top_n] is at least the number of distinct credited senders. *)
Theorem ranking_total (L : library) (top_n : Z) (self : ChatStatistics) :
  let ranking := (get_top_users L top_n self).1 in
  let replies :=
    filter (fun msg => replies_to_question L (chat_data self) msg) (chat_data self) in
  (0 <= total_count ranking <= Z.of_nat (length replies))%Z /\
  ((Z.of_nat (length (remove_dups (credited_users L (chat_data self)))) <= top_n)%Z ->
   total_count ranking = Z.of_nat (length replies)).
Proof.
  intros ranking replies. unfold ranking, replies.
  rewrite <- credited_users_length. split.
  - rewrite ranking_most_common. apply total_count_most_common.
  - intros Hn. rewrite ranking_full by exact Hn.
    rewrite (total_count_Permutation _ _ (sorted_desc_Permutation _)).
    apply total_count_Counter.
Qed.

Lemma ranking_total_witness :
  total_count (get_top_users Reference.lib 10 scenario).1 = 2%Z.
Proof.
  pose proof (ranking_total Reference.lib 10 scenario) as [_ H].
  apply H. vm_compute. discriminate.
Defined.

(** X7: the credits do not depend on the order of the messages: a collection
    and a rearrangement of it credit the same senders the same number of
    times, and when [top_n] is at least the number of distinct credited
    senders the two rankings hold the same entries. *)
Theorem credits_independent_of_order
    (L : library) (top_n : Z) (ms ms' : list message) (stop stop' : gset string) :
  ms ≡ₚ ms' ->
  let users := credited_users L ms in
  let users' := credited_users L ms' in
  users ≡ₚ users' /\
  (forall sender, occurrences sender users = occurrences sender users') /\
  ((Z.of_nat (length (remove_dups users)) <= top_n)%Z ->
   (get_top_users L top_n {| chat_data := ms; stop_words := stop |}).1 ≡ₚ
   (get_top_users L top_n {| chat_data := ms'; stop_words := stop' |}).1).
Proof.
  intros Hp users users'.
  assert (Hu : users ≡ₚ users') by now apply credited_users_Permutation.
  assert (Hocc : forall sender, occurrences sender users = occurrences sender users').
  { intros sender. unfold occurrences. now rewrite Hu. }
  split; [exact Hu|]. split; [exact Hocc|].
  intros Hn.
  assert (Hc : Counter users ≡ₚ Counter users').
  { apply NoDup_Permutation.
    - eapply NoDup_fmap_1, Counter_keys_NoDup.
    - eapply NoDup_fmap_1, Counter_keys_NoDup.
    - intros [u c]. split; intros Hin; apply Counter_elem in Hin as [Hin ->].
      + rewrite Hocc. rewrite Hu in Hin.
        apply (proj2 (Counter_keys_elem users' u)) in Hin.
        apply list_elem_of_fmap in Hin as ([k n] & -> & Hkn). simpl.
        now rewrite <- (proj2 (Counter_elem _ _ _ Hkn)).
      + rewrite <- Hocc. rewrite <- Hu in Hin.
        apply (proj2 (Counter_keys_elem users u)) in Hin.
        apply list_elem_of_fmap in Hin as ([k n] & -> & Hkn). simpl.
        now rewrite <- (proj2 (Counter_elem _ _ _ Hkn)). }
  rewrite !ranking_full; simpl; fold users users'.
  - now rewrite !sorted_desc_Permutation.
  - rewrite <- Counter_length, <- Hc, Counter_length. exact Hn.
  - exact Hn.
Qed.

Lemma credits_independent_of_order_witness :
  credited_users Reference.lib (chat_data scenario) ≡ₚ
  credited_users Reference.lib (reverse (chat_data scenario)).
Proof.
  apply (credits_independent_of_order Reference.lib 10 (chat_data scenario)
           (reverse (chat_data scenario)) ∅ ∅).
  symmetry. apply reverse_Permutation.
Defined.

(** X8: a ranking for a smaller [top_n] is the beginning of the ranking for
    a larger one. *)
Theorem ranking_prefix (L : library) (n m : Z) (self : ChatStatistics) :
  (n <= m)%Z ->
  (get_top_users L n self).1 `prefix_of` (get_top_users L m self).1.
Proof. intros Hnm. rewrite !ranking_most_common. now apply most_common_prefix. Qed.

Lemma ranking_prefix_witness :
  (get_top_users Reference.lib 1 scenario).1 `prefix_of`
  (get_top_users Reference.lib 10 scenario).1.
Proof. apply (ranking_prefix Reference.lib 1 10 scenario). lia. Defined.

(** X9: a collection in which no message is a question, or in which no
    message has a reply link other than 0, ranks nobody. *)
Theorem ranking_empty (L : library) (top_n : Z) (self : ChatStatistics) :
  (forall msg, msg ∈ chat_data self -> (msg_has_question L msg).1 = PyNone) \/
  (forall msg, msg ∈ chat_data self ->
     msg_reply_to_message_id msg = None \/ msg_reply_to_message_id msg = Some 0%Z) ->
  (get_top_users L top_n self).1 = [].
Proof.
  intros H. rewrite ranking_most_common, credited_users_spec.
  rewrite filter_none.
  - unfold most_common. simpl. destruct (top_n <=? 0)%Z; [reflexivity | apply take_nil].
  - intros msg Hmsg Hr. apply Is_true_eq_true in Hr.
    apply replies_to_question_iff in Hr as (k & q & Hk & Hk0 & Hq & _ & Hqq).
    destruct H as [H | H].
    + rewrite (H q Hq) in Hqq. discriminate.
    + destruct (H msg Hmsg) as [Hn | Hz]; congruence.
Qed.

Lemma ranking_empty_witness :
  (get_top_users Reference.lib 10
     (init Reference.lib
        [ Message 1 (Some "A") None (TStr "Hello.");
          Message 2 (Some "B") (Some 1%Z) (TStr "Hi") ] [])).1 = [].
Proof.
  apply ranking_empty. left. intros msg Hmsg.
  apply elem_of_cons in Hmsg as [-> | Hmsg]; [reflexivity|].
  apply list_elem_of_singleton in Hmsg as ->. reflexivity.
Defined.

(** X10: when [top_n] is at least the number of distinct credited senders,
    the sender of every message that replies to a question is ranked, with a
    count of at least 1; a null sender is ranked under the null key like any
    other. *)
Theorem every_reply_to_a_question_is_credited
    (L : library) (top_n : Z) (self : ChatStatistics) (msg : message) :
  (Z.of_nat (length (remove_dups (credited_users L (chat_data self)))) <= top_n)%Z ->
  msg ∈ chat_data self ->
  replies_to_question L (chat_data self) msg = true ->
  exists count,
    (msg_from msg, count) ∈ (get_top_users L top_n self).1 /\ (1 <= count)%Z.
Proof.
  intros Hn Hmsg Hr.
  assert (Hu : msg_from msg ∈ credited_users L (chat_data self)).
  { rewrite credited_users_spec. apply list_elem_of_fmap_2, list_elem_of_filter.
    split; [now apply Is_true_true | exact Hmsg]. }
  exists (occurrences (msg_from msg) (credited_users L (chat_data self))).
  split; [|now apply occurrences_pos].
  rewrite ranking_full by exact Hn. apply elem_of_sorted_desc.
  apply (proj2 (Counter_keys_elem _ _)) in Hu.
  apply list_elem_of_fmap in Hu as ([k n] & -> & Hkn). simpl.
  now rewrite <- (proj2 (Counter_elem _ _ _ Hkn)).
Qed.

Lemma every_reply_to_a_question_is_credited_witness :
  let self :=
    init Reference.lib
      [ Message 1 (Some "A") None (TStr "Are you coming?");
        Message 2 None (Some 1%Z) (TStr "Yes") ] [] in
  exists count, (None, count) ∈ (get_top_users Reference.lib 10 self).1 /\ (1 <= count)%Z.
Proof.
  intros self.
  apply (every_reply_to_a_question_is_credited Reference.lib 10 self
           (Message 2 None (Some 1%Z) (TStr "Yes"))).
  - vm_compute. discriminate.
  - right. left.
  - reflexivity.
Defined.

(** ** More on [generate_word_cloud] and [__init__] *)

Section MoreWordCloud.

Variable L : library.

Lemma text_content_loop_concat (sw : gset string) (messages : list message) :
  forall text_content,
    text_content_loop L sw text_content messages =
    text_content +:+ String.concat "" (contribution L sw <$> messages).
Proof.
  induction messages as [|m ms IH]; intros acc.
  - simpl. now rewrite str_app_empty_r.
  - rewrite fmap_cons, str_concat_cons. cbn [text_content_loop].
    unfold contribution at 1. destruct (msg_text m) as [s|l].
    + now rewrite IH, str_app_assoc.
    + now rewrite IH.
Qed.

Lemma raw_corpus_concat (self : ChatStatistics) :
  raw_corpus L self =
  String.concat "" (contribution L (stop_words self) <$> chat_data self).
Proof. unfold raw_corpus. now rewrite text_content_loop_concat. Qed.

Lemma contribution_fragmented (sw : gset string) (m : message) :
  is_plain m = false -> contribution L sw m = "".
Proof.
  unfold is_plain, contribution. destruct (msg_text m); [discriminate | reflexivity].
Qed.

Lemma contribution_plain_nonempty (sw : gset string) (m : message) :
  is_plain m = true -> contribution L sw m <> "".
Proof.
  unfold is_plain, contribution. destruct (msg_text m); discriminate.
Qed.

Lemma concat_contribution_plain (sw : gset string) (messages : list message) :
  String.concat "" (contribution L sw <$> filter (fun msg => is_plain msg) messages) =
  String.concat "" (contribution L sw <$> messages).
Proof.
  induction messages as [|m ms IH]; [reflexivity|].
  rewrite filter_cons, fmap_cons, str_concat_cons.
  destruct (is_plain m) eqn:E.
  - rewrite decide_True by exact I. now rewrite fmap_cons, str_concat_cons, IH.
  - rewrite decide_False by exact id.
    now rewrite (contribution_fragmented sw m E), IH.
Qed.

Lemma filter_all {A} (P : A -> Prop) `{forall x, Decision (P x)} (l : list A) :
  (forall x, x ∈ l -> P x) -> filter P l = l.
Proof.
  induction l as [|x l IH]; intros Hl; [reflexivity|].
  rewrite filter_cons, decide_True by (apply Hl; left).
  f_equal. apply IH. intros y Hy. apply Hl. now right.
Qed.

Lemma elem_of_stop_words (messages : list message) (stopwords_txt : list string)
    (w : string) :
  w ∈ stop_words (init L messages stopwords_txt) <->
  exists line, line ∈ stopwords_txt /\ w = normalize L (strip L line).
Proof.
  unfold init. simpl. rewrite elem_of_list_to_set, list_elem_of_fmap. split.
  - intros (x & -> & Hx). apply list_elem_of_fmap in Hx as (line & -> & Hline). eauto.
  - intros (line & Hline & ->). exists (strip L line).
    split; [reflexivity | now apply list_elem_of_fmap_2].
Qed.

End MoreWordCloud.

(** X11: the text assembled for two collections put end to end, under the
    same stopwords, is the text of the first followed by the text of the
    second. *)
Theorem raw_corpus_app (L : library) (ms1 ms2 : list message) (stop : gset string) :
  raw_corpus L {| chat_data := ms1 ++ ms2; stop_words := stop |} =
  raw_corpus L {| chat_data := ms1; stop_words := stop |} +:+
  raw_corpus L {| chat_data := ms2; stop_words := stop |}.
Proof. rewrite !raw_corpus_concat. simpl. now rewrite fmap_app, str_concat_app. Qed.

(** X12: messages whose [text] is not a [str] add nothing to the assembled
    text: it is the text of the plain-string messages alone, and it is empty
    exactly when the collection has no plain-string message. *)
Theorem fragmented_messages_are_skipped (L : library) (self : ChatStatistics) :
  raw_corpus L self =
    raw_corpus L {| chat_data := filter (fun msg => is_plain msg) (chat_data self);
                    stop_words := stop_words self |} /\
  (raw_corpus L self = "" <-> plain_count (chat_data self) = 0).
Proof.
  rewrite !raw_corpus_concat. simpl. split.
  - now rewrite concat_contribution_plain.
  - rewrite <- concat_contribution_plain. unfold plain_count.
    destruct (filter (fun msg => is_plain msg) (chat_data self)) as [|m ms] eqn:E.
    + split; reflexivity.
    + split; [|discriminate]. rewrite fmap_cons, str_concat_cons. intros H.
      apply str_app_eq_empty in H as [H _]. exfalso.
      assert (Hm : m ∈ filter (fun msg => is_plain msg) (chat_data self))
        by (rewrite E; left).
      apply list_elem_of_filter in Hm as [Hm _].
      exact (contribution_plain_nonempty L _ m (Is_true_eq_true _ Hm) H).
Qed.

(** X13: with an empty stopword list every token is kept: each plain-string
    message adds a space followed by all its tokens joined by spaces. *)
Theorem empty_stopword_list_keeps_every_token
    (L : library) (messages : list message) :
  raw_corpus L (init L messages []) =
  String.concat ""
    ((fun msg =>
        match msg_text msg with
        | TStr s => " " +:+ join " " (word_tokenize L s)
        | TList _ => ""
        end) <$> messages).
Proof.
  rewrite raw_corpus_concat. f_equal. apply list_fmap_ext. intros i msg _.
  unfold contribution. destruct (msg_text msg); [|reflexivity].
  rewrite filter_all; [reflexivity|]. intros x _. simpl. apply not_elem_of_empty.
Qed.

(** X14: the filter of [generate_word_cloud] drops exactly the tokens that
    are the normalised, stripped form of a line of the stopword file. When
    normalising such a form again does not change it, a token that
    normalisation would change is therefore never dropped. *)
Theorem filter_drops_normal_forms_only
    (L : library) (messages : list message) (stopwords_txt tokens : list string)
    (token : string) :
  let self := init L messages stopwords_txt in
  (token ∈ filter (fun item => item ∉ stop_words self) tokens <->
   token ∈ tokens /\
   forall line, line ∈ stopwords_txt -> token <> normalize L (strip L line)) /\
  ((forall line, line ∈ stopwords_txt ->
      normalize L (normalize L (strip L line)) = normalize L (strip L line)) ->
   normalize L token <> token -> token ∈ tokens ->
   token ∈ filter (fun item => item ∉ stop_words self) tokens).
Proof.
  intros self.
  assert (Hiff : token ∈ filter (fun item => item ∉ stop_words self) tokens <->
                 token ∈ tokens /\
                 forall line, line ∈ stopwords_txt ->
                              token <> normalize L (strip L line)).
  { rewrite list_elem_of_filter. unfold self. rewrite elem_of_stop_words. split.
    - intros [Hn Ht]. split; [exact Ht|]. intros line Hline Heq. apply Hn. eauto.
    - intros [Ht Hn]. split; [|exact Ht]. intros (line & Hline & Heq).
      exact (Hn line Hline Heq). }
  split; [exact Hiff|].
  intros Hidem Hneq Ht. apply Hiff. split; [exact Ht|].
  intros line Hline ->. apply Hneq. now apply Hidem.
Qed.

Lemma filter_drops_normal_forms_only_witness :
  let self := init Reference.lib [] ["که"] in
  "كه" ∈ filter (fun item => item ∉ stop_words self) ["كه"; "که"].
Proof.
  intros self.
  apply (filter_drops_normal_forms_only Reference.lib [] ["که"] ["كه"; "که"] "كه").
  - intros line Hline. apply list_elem_of_singleton in Hline as ->. reflexivity.
  - vm_compute. discriminate.
  - left.
Defined.

(** ** The script *)

Lemma corpus_plain_only (L : library) (messages : list message)
    (stopwords_txt : list string) :
  corpus L (init L messages stopwords_txt) =
  corpus L (init L (filter (fun msg => is_plain msg) messages) stopwords_txt).
Proof.
  unfold corpus. rewrite !raw_corpus_concat. simpl.
  now rewrite concat_contribution_plain.
Qed.

(** X15: the script builds the word cloud first, from the plain-string
    messages alone; when the rasterizer raises, nothing is saved and no
    ranking is printed; otherwise the image is saved under [wordcloud.png]
    and the ranking of the whole collection, of at most ten senders, is
    printed before [Done!]. *)
Theorem main_events (L : library) (data_dir : string) (messages : list message)
    (stopwords_txt : list string) :
  let text :=
    corpus L (init L (filter (fun msg => is_plain msg) messages) stopwords_txt) in
  let top_users := (get_top_users L 10 (init L messages stopwords_txt)).1 in
  main L data_dir messages stopwords_txt =
    (if wordcloud_generate L text
     then [ Called (WordCloud_generate text);
            Called (to_file data_dir "wordcloud.png");
            Printed_top_users top_users;
            Printed_done ]
     else [ Called (WordCloud_generate text) ]) /\
  length top_users <= 10.
Proof.
  intros text top_users. split.
  - unfold main, generate_word_cloud, text, top_users.
    rewrite <- corpus_plain_only.
    destruct (wordcloud_generate L (corpus L (init L messages stopwords_txt)));
      [|reflexivity].
    now destruct (get_top_users L 10 (init L messages stopwords_txt)).
  - unfold top_users. rewrite ranking_most_common.
    pose proof (most_common_length 10
      (Counter (credited_users L (chat_data (init L messages stopwords_txt))))).
    lia.
Qed.

Lemma main_events_witness :
  main Reference.lib "data" [ Message 1 (Some "A") None (TStr "a a") ] ["a"] =
  [ Called (WordCloud_generate " ") ].
Proof.
  exact (proj1 (main_events Reference.lib "data"
                  [ Message 1 (Some "A") None (TStr "a a") ] ["a"])).
Defined.
